(** * The ctypes logger binding of libdatadog, [examples/py/ddog_logger.py]

    A shallow embedding of the Python example that binds the native logger of
    libdatadog through [ctypes]: the structures shared with the native side
    ([CharSlice], [LogField], [LogFieldVec], [LogEvent]), the [LogLevel]
    constants, the public wrappers around the four native entry points, and
    the example callback [log_callback].

    Conventions.
    - A Python [str] is the list of its Unicode code points ([pystr]).
    - A call either returns, raises a Python exception, or kills the process
      by an invalid memory access ([outcome]).
    - Native memory is a finite map from addresses to bytes; an address
      outside the map is not readable.  Structure layout is the one [ctypes]
      computes on a 64-bit little-endian platform (the script loads a 64-bit
      macOS library).
    - The native library itself is not part of the script; the wrappers take
      its four entry points as a record ([CDLL]). *)

From Stdlib Require Import ZArith NArith List String Ascii Lia.
From Stdlib Require Import Strings.Byte.
From stdpp Require Import gmap strings list pretty.

Local Open Scope N_scope.

(** ** Python values and outcomes *)

(** A Python [str]: the sequence of its code points. *)
Abbreviation pystr := (list N).

(** A literal of the script, all of whose characters are ASCII. *)
Definition lit (s : string) : pystr := N_of_ascii <$> list_ascii_of_string s.

(** The exceptions the script can meet. *)
Inductive exn : Type :=
  | RuntimeError (msg : pystr)
  | UnicodeDecodeError.

(** How a call ends. *)
Inductive outcome (A : Type) : Type :=
  | Return (a : A)
  | Raise (e : exn)
  | Segfault.
Arguments Return {A} a.
Arguments Raise {A} e.
Arguments Segfault {A}.

Global Instance outcome_ret : MRet outcome := @Return.
Global Instance outcome_bind : MBind outcome := λ A B f m,
  match m with
  | Return a => f a
  | Raise e => Raise e
  | Segfault => Segfault
  end.
Global Instance outcome_fmap : FMap outcome := λ A B f m,
  match m with
  | Return a => Return (f a)
  | Raise e => Raise e
  | Segfault => Segfault
  end.

(** The call returns: it neither raises nor dies. *)
Definition returns {A} (o : outcome A) : Prop := ∃ a, o = Return a.

(** ** The UTF-8 codec behind [bytes.decode("utf-8", errors=...)]

    The decoder of CPython: a malformed sequence is reported to the error
    handler together with the span of bytes it covers (an invalid start byte
    covers one byte; an invalid continuation byte ends the span just before
    it; a sequence cut by the end of the input covers the rest), and decoding
    resumes after the span. *)
Module Utf8.

(** The [errors=] argument: "strict" (the default) or "replace". *)
Inductive errors : Type := strict | replace.

(** U+FFFD REPLACEMENT CHARACTER. *)
Definition REPLACEMENT : N := 0xFFFD.

Definition is_continuation (b : N) : bool := (0x80 <=? b) && (b <? 0xC0).

(** The error handler; [rest] is the decoding of what follows the span. *)
Definition on_error (e : errors) (rest : outcome pystr) : outcome pystr :=
  match e with
  | strict => Raise UnicodeDecodeError
  | replace => cons REPLACEMENT <$> rest
  end.

Definition ch2_of (ch ch2 : N) : N :=
  (N.shiftl ch 6 + ch2) - (N.shiftl 0xC0 6 + 0x80).
Definition ch3_of (ch ch2 ch3 : N) : N :=
  (N.shiftl ch 12 + N.shiftl ch2 6 + ch3)
  - (N.shiftl 0xE0 12 + N.shiftl 0x80 6 + 0x80).
Definition ch4_of (ch ch2 ch3 ch4 : N) : N :=
  (N.shiftl ch 18 + N.shiftl ch2 12 + N.shiftl ch3 6 + ch4)
  - (N.shiftl 0xF0 18 + N.shiftl 0x80 12 + N.shiftl 0x80 6 + 0x80).

Fixpoint decode_from (e : errors) (s : list N) : outcome pystr :=
  match s with
  | [] => Return []
  | ch :: s1 =>
    if ch <? 0x80 then cons ch <$> decode_from e s1
    else if ch <? 0xC2 then on_error e (decode_from e s1)
    else if ch <? 0xE0 then
      match s1 with
      | [] => on_error e (Return [])
      | ch2 :: s2 =>
        if negb (is_continuation ch2) then on_error e (decode_from e s1)
        else cons (ch2_of ch ch2) <$> decode_from e s2
      end
    else if ch <? 0xF0 then
      match s1 with
      | [] => on_error e (Return [])
      | ch2 :: s2 =>
        if negb (is_continuation ch2)
           || (if ch2 <? 0xA0 then ch =? 0xE0 else ch =? 0xED)
        then on_error e (decode_from e s1)
        else
          match s2 with
          | [] => on_error e (Return [])
          | ch3 :: s3 =>
            if negb (is_continuation ch3) then on_error e (decode_from e s2)
            else cons (ch3_of ch ch2 ch3) <$> decode_from e s3
          end
      end
    else if ch <? 0xF5 then
      match s1 with
      | [] => on_error e (Return [])
      | ch2 :: s2 =>
        if negb (is_continuation ch2)
           || (if ch2 <? 0x90 then ch =? 0xF0 else ch =? 0xF4)
        then on_error e (decode_from e s1)
        else
          match s2 with
          | [] => on_error e (Return [])
          | ch3 :: s3 =>
            if negb (is_continuation ch3) then on_error e (decode_from e s2)
            else
              match s3 with
              | [] => on_error e (Return [])
              | ch4 :: s4 =>
                if negb (is_continuation ch4)
                then on_error e (decode_from e s3)
                else cons (ch4_of ch ch2 ch3 ch4) <$> decode_from e s4
              end
          end
      end
    else on_error e (decode_from e s1)
  end.

(** [bytes(bs).decode("utf-8", errors=e)] *)
Definition decode (e : errors) (bs : list byte) : outcome pystr :=
  decode_from e (Byte.to_N <$> bs).

End Utf8.

(** ** Native memory and the [ctypes] data types *)

(** Native memory: a finite map from addresses to bytes.  An address outside
    the map is not readable; reading it kills the process. *)
Abbreviation memory := (gmap N byte).

(** Pointer arithmetic on a 64-bit address. *)
Definition ptr_add (p off : N) : N := (p + off) mod 2 ^ 64.

(** [range(n)] *)
Definition range (n : N) : list N := N.of_nat <$> seq 0 (N.to_nat n).

(** The contents of a [(c_ubyte * n)] at address [p]: [n] bytes in order. *)
Definition load_bytes (m : memory) (p n : N) : option (list byte) :=
  mapM (λ i, m !! ptr_add p i) (range n).

(** A little-endian 64-bit word: a pointer or a [c_size_t]. *)
Definition word_of_bytes (bs : list byte) : N :=
  foldr (λ b acc, Byte.to_N b + 256 * acc) 0 bs.
Definition load_word (m : memory) (a : N) : option N :=
  word_of_bytes <$> load_bytes m a 8.

(** Conversion of a Python int to a [c_int] argument or field: [ctypes] does
    no overflow checking, the value wraps to 32 bits, signed. *)
Definition c_int (z : Z) : Z := ((z + 2 ^ 31) mod 2 ^ 32 - 2 ^ 31)%Z.

(** A [c_void_p] result: a null pointer comes back as [None], any other
    address as an int. *)
Definition c_void_p (a : N) : option N := if a =? 0 then None else Some a.

(** Truth value of such a result: [None] and [0] are false. *)
Definition truthy (r : option N) : bool :=
  match r with
  | None => false
  | Some a => negb (a =? 0)
  end.

Module CharSlice.

(** [_fields_ = [("data", POINTER(c_ubyte)), ("len", c_size_t)]].
    A null pointer is address 0. *)
Record t : Type := Make { data : N; len : N }.

Definition sizeof : N := 16.

Definition load (m : memory) (a : N) : option t :=
  d ← load_word m a;
  l ← load_word m (ptr_add a 8);
  Some {| data := d; len := l |}.

(** [to_str(self)].  Building the array type [c_ubyte * len] and copying it
    into a [bytearray] are taken to succeed: CPython raises OverflowError or
    MemoryError there when [len] is of the order of the address space (2^63
    and just below), more than any readable region holds. *)
Definition to_str (m : memory) (self : t) : outcome pystr :=
  if (data self =? 0) || (len self =? 0) then Return []
  else
    match load_bytes m (data self) (len self) with
    | None => Segfault
    | Some byte_array => Utf8.decode Utf8.replace byte_array
    end.

End CharSlice.

Module LogField.

(** [_fields_ = [("key", CharSlice), ("value", CharSlice)]] *)
Record t : Type := Make { key : CharSlice.t; value : CharSlice.t }.

Definition sizeof : N := 32.

Definition load (m : memory) (a : N) : option t :=
  k ← CharSlice.load m a;
  v ← CharSlice.load m (ptr_add a CharSlice.sizeof);
  Some {| key := k; value := v |}.

End LogField.

Module LogFieldVec.

(** [_fields_ = [("ptr", POINTER(LogField)), ("len", c_size_t),
                 ("capacity", c_size_t)]] *)
Record t : Type := Make { ptr : N; len : N; capacity : N }.

(** [self.ptr[i]]: the element at [ptr + i * sizeof(LogField)].  [ctypes]
    hands out a view of the element; memory does not change while the
    callback runs, so the model reads its fields at once. *)
Definition getitem (m : memory) (self : t) (i : N) : option LogField.t :=
  LogField.load m (ptr_add (ptr self) (i * LogField.sizeof)).

(** [to_list(self)].  An element that cannot be read shows here as an
    invalid read; in the script the views are built without a read, and the
    process dies when the field is used. *)
Definition to_list (m : memory) (self : t) : outcome (list LogField.t) :=
  if (ptr self =? 0) || (len self =? 0) then Return []
  else
    match mapM (getitem m self) (range (len self)) with
    | None => Segfault
    | Some l => Return l
    end.

End LogFieldVec.

Module LogEvent.

(** [_fields_ = [("level", c_int), ("message", CharSlice),
                 ("fields", LogFieldVec)]] *)
Record t : Type :=
  Make { level : Z; message : CharSlice.t; fields : LogFieldVec.t }.

End LogEvent.

(** ** [class LogLevel] *)
Module LogLevel.
Definition DEBUG : Z := 0.
Definition INFO : Z := 1.
Definition WARN : Z := 2.
Definition ERROR : Z := 3.
Definition TRACE : Z := 4.

(** The attributes of the class, in the order of their definition. *)
Definition members : list (string * Z) :=
  [("DEBUG", DEBUG); ("INFO", INFO); ("WARN", WARN); ("ERROR", ERROR);
   ("TRACE", TRACE)]%string.
End LogLevel.

(** ** The native library

    [lib = ctypes.CDLL(...)] with the four functions the script binds.  The
    library is not part of the script: each entry point is a transition of an
    opaque native state.  Whatever the native side does during a call,
    running the registered callback included, happens within that transition.
    The two functions of result type [c_void_p] also give the address they
    return; the callback argument is the callback object that is passed. *)
Module CDLL.
Record t (State : Type) : Type := Make {
  ddog_logger_init : Z → nat → State → N * State;
  ddog_logger_set_max_log_level : Z → State → N * State;
  trigger_logs : State → State;
  trigger_logs_with_args : State → State;
}.
Arguments Make {State}.
Arguments ddog_logger_init {State}.
Arguments ddog_logger_set_max_log_level {State}.
Arguments trigger_logs {State}.
Arguments trigger_logs_with_args {State}.
End CDLL.

(** ** Module state and the public wrappers *)
Section Wrappers.
Context {State callable : Type} (lib : CDLL.t State).

(** The state of the Python side: the live [CALLBACK_TYPE] instances, each
    with its target and its reference count (CPython frees an object when the
    count drops to zero), the number of the next object, the module global
    [_callback_holder] ([None] or a callback object), and the native state. *)
Record world : Type := World {
  objects : gmap nat (callable * nat);
  next_object : nat;
  _callback_holder : option nat;
  native : State;
}.

(** The module as loaded: [_callback_holder = None]. *)
Definition loaded (s : State) : world :=
  {| objects := ∅; next_object := 0; _callback_holder := None; native := s |}.

Definition incref (o : nat) (objs : gmap nat (callable * nat))
  : gmap nat (callable * nat) :=
  alter (λ '(f, n), (f, S n)) o objs.

Definition decref (o : nat) (objs : gmap nat (callable * nat))
  : gmap nat (callable * nat) :=
  match objs !! o with
  | Some (f, S (S n)) => <[o := (f, S n)]> objs
  | Some (_, _) => delete o objs
  | None => objs
  end.

(** [cb = CALLBACK_TYPE(callback)]: a new object, held by the local [cb]. *)
Definition CALLBACK_TYPE (callback : callable) (w : world) : nat * world :=
  (next_object w,
   {| objects := <[next_object w := (callback, 1%nat)]> (objects w);
      next_object := S (next_object w);
      _callback_holder := _callback_holder w;
      native := native w |}).

(** [_callback_holder = cb]: the global takes a reference to [cb] and gives
    up the one to the object it held. *)
Definition set_callback_holder (cb : nat) (w : world) : world :=
  {| objects :=
       match _callback_holder w with
       | Some old => decref old (incref cb (objects w))
       | None => incref cb (objects w)
       end;
     next_object := next_object w;
     _callback_holder := Some cb;
     native := native w |}.

(** The local [cb] goes away when the frame of the call does. *)
Definition drop_local (cb : nat) (w : world) : world :=
  {| objects := decref cb (objects w);
     next_object := next_object w;
     _callback_holder := _callback_holder w;
     native := native w |}.

Definition with_native (s : State) (w : world) : world :=
  {| objects := objects w;
     next_object := next_object w;
     _callback_holder := _callback_holder w;
     native := s |}.

Definition error_message : pystr :=
  lit "Rust returned an error (Box<Error>) " ++ [0x2014]
  ++ lit " need ddog_error_message for details".

Definition _check_error (result : option N) : outcome unit :=
  if truthy result then Raise (RuntimeError error_message)
  else Return tt.

Definition ddog_logger_init (level : Z) (callback : callable) (w : world)
  : outcome unit * world :=
  let '(cb, w) := CALLBACK_TYPE callback w in
  let w := set_callback_holder cb w in
  let '(result, s) := CDLL.ddog_logger_init lib (c_int level) cb (native w) in
  let w := with_native s w in
  (_check_error (c_void_p result), drop_local cb w).

Definition ddog_logger_set_max_log_level (level : Z) (w : world)
  : outcome unit * world :=
  let '(result, s) :=
    CDLL.ddog_logger_set_max_log_level lib (c_int level) (native w) in
  (_check_error (c_void_p result), with_native s w).

Definition trigger_logs (w : world) : outcome unit * world :=
  (Return tt, with_native (CDLL.trigger_logs lib (native w)) w).

Definition trigger_logs_with_args (w : world) : outcome unit * world :=
  (Return tt, with_native (CDLL.trigger_logs_with_args lib (native w)) w).

(** A call of one of the public wrappers. *)
Inductive call : Type :=
  | Init (level : Z) (callback : callable)
  | SetMaxLogLevel (level : Z)
  | TriggerLogs
  | TriggerLogsWithArgs.

Definition run_call (c : call) (w : world) : outcome unit * world :=
  match c with
  | Init level callback => ddog_logger_init level callback w
  | SetMaxLogLevel level => ddog_logger_set_max_log_level level w
  | TriggerLogs => trigger_logs w
  | TriggerLogsWithArgs => trigger_logs_with_args w
  end.

(** A client that goes on after every call, whether it returned or raised. *)
Definition run_calls (cs : list call) (w : world) : world :=
  foldl (λ w c, (run_call c w).2) w cs.

Definition is_init (c : call) : bool :=
  match c with
  | Init _ _ => true
  | _ => false
  end.

End Wrappers.

Arguments world : clear implicits.
Arguments call : clear implicits.

(** ** The example callback *)

(** What the callback finds around it: the thread it runs on, as [str] shows
    it, and native memory. *)
Record env : Type := Env { current_thread : pystr; mem : memory }.

(** [str(n)] for an int. *)
Definition str_of_int (n : Z) : pystr := lit (pretty n).

(** The dict literal of [log_callback]; the entries are inserted in order. *)
Definition level_names : gmap Z pystr :=
  <[LogLevel.TRACE := lit "TRACE"]>
  (<[LogLevel.ERROR := lit "ERROR"]>
  (<[LogLevel.WARN := lit "WARN"]>
  (<[LogLevel.INFO := lit "INFO"]>
  (<[LogLevel.DEBUG := lit "DEBUG"]> ∅)))).

(** [{...}.get(level, f"UNKNOWN({level})")] *)
Definition level_name (level : Z) : pystr :=
  default (lit "UNKNOWN(" ++ str_of_int level ++ lit ")")
          (level_names !! level).

(** The line printed for one field. *)
Definition field_line (m : memory) (field : LogField.t) : outcome pystr :=
  key ← CharSlice.to_str m (LogField.key field);
  value ← CharSlice.to_str m (LogField.value field);
  Return (lit "  " ++ key ++ lit " = " ++ value).

(** [log_callback(event)]: the lines it prints when it returns, one per call
    of [print].  [print] is taken to succeed, standard output being able to
    encode every character; what was printed before an invalid read is not
    kept. *)
Definition log_callback (e : env) (event : LogEvent.t)
  : outcome (list pystr) :=
  let level_name := level_name (LogEvent.level event) in
  let thread_id := current_thread e in
  let line1 := lit "[" ++ thread_id ++ lit "]" in
  message ← CharSlice.to_str (mem e) (LogEvent.message event);
  let line2 := lit "[" ++ level_name ++ lit "] " ++ message in
  fields ← LogFieldVec.to_list (mem e) (LogEvent.fields event);
  lines ← mapM (field_line (mem e)) fields;
  Return (line1 :: line2 :: lines).

(** ** The logging core behind the binding *)
Module Core.

(** Modelled from the spec: the level filter, the sink registration and the
    emission API ([init], [set_max_level], [emit], [emit_with_fields]) live in
    the native library, which the script only calls; they are written here
    from sections 3 and 4 of the specification.  Levels are ordered by the
    numeric values of [LogLevel]. *)
Inductive Level : Type := Debug | Info | Warn | Error | Trace.

(** Modelled from the spec: the total order of the levels is the one of
    their numeric values, in which Trace is the highest. *)
Definition value_of (l : Level) : Z :=
  match l with
  | Debug => LogLevel.DEBUG
  | Info => LogLevel.INFO
  | Warn => LogLevel.WARN
  | Error => LogLevel.ERROR
  | Trace => LogLevel.TRACE
  end.

(** Modelled from the spec: "L is at or above the threshold". *)
Definition at_or_above (l threshold : Level) : bool :=
  (value_of threshold <=? value_of l)%Z.

(** Modelled from the spec: a Field is a key and a value, both text. *)
Record Field : Type := MkField { key : pystr; value : pystr }.

(** Modelled from the spec: an Event is a level, a message and an ordered
    sequence of Fields, duplicate keys permitted. *)
Record Event : Type :=
  MkEvent { level : Level; message : pystr; fields : list Field }.

(** Modelled from the spec: one process-wide threshold and at most one
    registered sink. *)
Record logger (Sink : Type) : Type :=
  Logger { threshold : Level; sink : option Sink }.
Arguments Logger {Sink}.
Arguments threshold {Sink}.
Arguments sink {Sink}.

(** Modelled from the spec: [init(level, sink)] sets the threshold and
    registers the sink, replacing any previous registration. *)
Definition init {Sink} (l : Level) (s : Sink) (lg : logger Sink)
  : logger Sink :=
  {| threshold := l; sink := Some s |}.

(** Modelled from the spec: [set_max_level(level)] replaces the threshold. *)
Definition set_max_level {Sink} (l : Level) (lg : logger Sink)
  : logger Sink :=
  {| threshold := l; sink := sink lg |}.

(** Modelled from the spec: [emit_with_fields(level, message, fields)].  The
    result lists the sink invocations made before the call returns, in order:
    which sink, with which Event.  Without a registered sink the call does
    nothing, as the specification recommends. *)
Definition emit_with_fields {Sink} (lg : logger Sink) (l : Level)
    (msg : pystr) (fs : list Field) : list (Sink * Event) :=
  if at_or_above l (threshold lg) then
    match sink lg with
    | Some s => [(s, {| level := l; message := msg; fields := fs |})]
    | None => []
    end
  else [].

(** Modelled from the spec: [emit(level, message)] delivers an Event with an
    empty field sequence. *)
Definition emit {Sink} (lg : logger Sink) (l : Level) (msg : pystr)
  : list (Sink * Event) :=
  emit_with_fields lg l msg [].

End Core.

(** ** Predicates used in the statements *)

(** How the lossy decoding relates to the strict one on the same input: it
    is the same string when the strict decoder accepts the input, and a
    string that contains U+FFFD when the strict decoder raises. *)
Definition lossy_of (strict_result lossy_result : outcome pystr) : Prop :=
  match strict_result with
  | Return r => lossy_result = Return r
  | Raise e =>
      e = UnicodeDecodeError
      ∧ ∃ r, lossy_result = Return r ∧ Utf8.REPLACEMENT ∈ r
  | Segfault => False
  end.

(** A Unicode scalar value: a code point that is not a surrogate.  A Python
    [str] decoded from UTF-8 holds nothing else. *)
Definition is_scalar (c : N) : Prop :=
  c < 0x110000 ∧ (c < 0xD800 ∨ 0xE000 ≤ c).

Definition all_scalar (o : outcome pystr) : Prop :=
  match o with
  | Return r => Forall is_scalar r
  | _ => True
  end.

(** [bs] are the bytes stored at [p], [p+1], ... *)
Definition bytes_at (m : memory) (p : N) (bs : list byte) : Prop :=
  ∀ i b, bs !! i = Some b → m !! ptr_add p (N.of_nat i) = Some b.

(** Every byte a slice designates is readable; nothing is asked of a slice
    that is null or empty. *)
Definition slice_readable (m : memory) (s : CharSlice.t) : Prop :=
  CharSlice.data s ≠ 0 → CharSlice.len s ≠ 0 →
  ∀ i, i < CharSlice.len s → is_Some (m !! ptr_add (CharSlice.data s) i).

(** [fs] are the elements stored at indices 0, 1, ... of the vector. *)
Definition fields_at (m : memory) (v : LogFieldVec.t) (fs : list LogField.t)
  : Prop :=
  ∀ i f, fs !! i = Some f → LogFieldVec.getitem m v (N.of_nat i) = Some f.

(** The level as the callback is to show it: the name of the level for the
    values 0 to 4, [UNKNOWN(<level>)] for any other int. *)
Definition shown_level (level : Z) : pystr :=
  if (level =? 0)%Z then lit "DEBUG"
  else if (level =? 1)%Z then lit "INFO"
  else if (level =? 2)%Z then lit "WARN"
  else if (level =? 3)%Z then lit "ERROR"
  else if (level =? 4)%Z then lit "TRACE"
  else lit "UNKNOWN(" ++ str_of_int level ++ lit ")".

(** The state of the Python side is well formed: objects are numbered below
    [next_object], and the object [_callback_holder] names is live, with the
    global as its only reference. *)
Definition world_ok {State callable} (w : world State callable) : Prop :=
  (∀ o, is_Some (objects w !! o) → (o < next_object w)%nat)
  ∧ (∀ cb, _callback_holder w = Some cb →
       ∃ f, objects w !! cb = Some (f, 1%nat)).

(** ** Example data *)

(** [bs] written at consecutive addresses from [a]. *)
Fixpoint store_bytes (a : N) (bs : list byte) (m : memory) : memory :=
  match bs with
  | [] => m
  | b :: bs => <[a := b]> (store_bytes (N.succ a) bs m)
  end.

(** The bytes of [s], an ASCII literal. *)
Definition ascii_bytes (s : string) : list byte :=
  byte_of_ascii <$> list_ascii_of_string s.

(** The eight bytes of a 64-bit word below 256, little-endian. *)
Definition small_word (b : byte) : list byte :=
  [b; x00; x00; x00; x00; x00; x00; x00]%byte.

(** A vector of two fields with the same key: ("k", "a") and ("k", "b").
    The structures are at address 256, the bytes of "k", "a" and "b" at 64,
    65 and 66. *)
Definition two_fields_memory : memory :=
  store_bytes 64 (ascii_bytes "kab")
  (store_bytes 256
     (small_word x40 ++ small_word x01 ++ small_word x41 ++ small_word x01
      ++ small_word x40 ++ small_word x01 ++ small_word x42 ++ small_word x01)
     ∅).

Definition two_fields : LogFieldVec.t := LogFieldVec.Make 256 2 2.

Definition field_k_a : LogField.t :=
  LogField.Make (CharSlice.Make 64 1) (CharSlice.Make 65 1).
Definition field_k_b : LogField.t :=
  LogField.Make (CharSlice.Make 64 1) (CharSlice.Make 66 1).

(** An event of level 9 with the message "hi" at address 64 and no field. *)
Definition event_level_9 : LogEvent.t :=
  LogEvent.Make 9 (CharSlice.Make 64 2) (LogFieldVec.Make 0 0 0).
Definition env_level_9 : env :=
  {| current_thread := lit "<_MainThread(MainThread, started 1)>";
     mem := store_bytes 64 (ascii_bytes "hi") ∅ |}.

(** A native library that refuses every registration and every change of
    level: both functions return a non-null error and leave the native state
    as it was. *)
Definition refusing_lib : CDLL.t unit :=
  CDLL.Make (λ _ _ s, (1, s)) (λ _ s, (1, s)) id id.

(** A native library that accepts everything and counts the calls made to
    [ddog_logger_init]. *)
Definition accepting_lib : CDLL.t nat :=
  CDLL.Make (λ _ _ s, (0, S s)) (λ _ s, (0, s)) id id.

(** A native library that keeps the first callback it is given and refuses
    any later registration with a non-null error; its state is the callback
    object it calls. *)
Definition first_wins_lib : CDLL.t (option nat) :=
  CDLL.Make
    (λ _ cb s, match s with
               | None => (0, Some cb)
               | Some _ => (1, s)
               end)
    (λ _ s, (0, s)) id id.

(** The type of [log_callback], for the callbacks of the examples. *)
Abbreviation callback_type := (env → LogEvent.t → outcome (list pystr)).

(** The result, if any, has at most [n] characters. *)
Definition at_most (n : nat) (o : outcome pystr) : Prop :=
  match o with
  | Return r => (length r ≤ n)%nat
  | _ => True
  end.

(** The result, if any, is not the empty string. *)
Definition not_empty (o : outcome pystr) : Prop :=
  match o with
  | Return [] => False
  | _ => True
  end.

(** The number of fields the callback goes through for a vector. *)
Definition field_count (v : LogFieldVec.t) : nat :=
  if (LogFieldVec.ptr v =? 0) || (LogFieldVec.len v =? 0) then 0%nat
  else N.to_nat (LogFieldVec.len v).

(** An event with a null message and the two fields of the example. *)
Definition event_two_fields : LogEvent.t :=
  LogEvent.Make LogLevel.INFO (CharSlice.Make 0 0) two_fields.
Definition env_two_fields : env :=
  {| current_thread := lit "t"; mem := two_fields_memory |}.


(** ** The script run as a program *)

(** [if __name__ == "__main__":] the callback of the example is registered
    at level DEBUG, then the logs with fields are triggered.  An exception
    out of the first call ends the script. *)
Definition main {State} (lib : CDLL.t State) (w : world State callback_type)
  : outcome unit * world State callback_type :=
  let '(r, w) := ddog_logger_init lib LogLevel.DEBUG log_callback w in
  match r with
  | Return _ => trigger_logs_with_args lib w
  | Raise e => (Raise e, w)
  | Segfault => (Segfault, w)
  end.

(** A callback that prints nothing. *)
Definition silent_callback : callback_type := λ _ _, Return [].

(** A native library that counts the logs triggered and refuses a
    registration at a level other than 0. *)
Definition counting_lib : CDLL.t nat :=
  CDLL.Make (λ level _ s, (if (level =? 0)%Z then 0 else 1, s))
            (λ _ s, (0, s)) S S.

(** * Properties *)

(** ** The codec *)

Example decode_ascii :
  Utf8.decode Utf8.replace [x68; x69]%byte = Return [0x68; 0x69].
Proof. reflexivity. Qed.
Example decode_euro :
  Utf8.decode Utf8.strict [xe2; x82; xac]%byte = Return [0x20AC].
Proof. reflexivity. Qed.
Example decode_bad :
  Utf8.decode Utf8.replace [x61; xe2; x82; x62; xff; xf0; x9f]%byte
  = Return [0x61; 0xFFFD; 0x62; 0xFFFD; 0xFFFD].
Proof. reflexivity. Qed.
Example decode_bad_strict :
  Utf8.decode Utf8.strict [x61; xe2; x82; x62]%byte = Raise UnicodeDecodeError.
Proof. reflexivity. Qed.
Example decode_surrogate :
  Utf8.decode Utf8.replace [xed; xa0; x80]%byte
  = Return [0xFFFD; 0xFFFD; 0xFFFD].
Proof. reflexivity. Qed.
Example decode_latin :
  Utf8.decode Utf8.strict [x63; xc3; xa9]%byte = Return [0x63; 0xE9].
Proof. reflexivity. Qed.
Example decode_overlong :
  Utf8.decode Utf8.replace [xc0; x80; xe0; x80; x80]%byte
  = Return [0xFFFD; 0xFFFD; 0xFFFD; 0xFFFD; 0xFFFD].
Proof. reflexivity. Qed.
Example decode_above_range :
  Utf8.decode Utf8.replace [xf4; x90; x80; x80]%byte
  = Return [0xFFFD; 0xFFFD; 0xFFFD; 0xFFFD].
Proof. reflexivity. Qed.
Example decode_cut_then_ascii :
  Utf8.decode Utf8.replace [xf0; x9f; x98; x61]%byte = Return [0xFFFD; 0x61].
Proof. reflexivity. Qed.
Example decode_emoji :
  Utf8.decode Utf8.replace [xf0; x9f; x98; x80]%byte = Return [0x1F600].
Proof. reflexivity. Qed.

(** With [errors="replace"] the decoder returns a string on every input. *)
Lemma returns_cons (c : N) (o : outcome pystr) :
  returns o → returns (cons c <$> o).
Proof. intros [r ->]. by eexists. Qed.

Lemma returns_error (o : outcome pystr) :
  returns o → returns (Utf8.on_error Utf8.replace o).
Proof. apply returns_cons. Qed.

Lemma decode_from_replace_total (s : list N) :
  returns (Utf8.decode_from Utf8.replace s).
Proof.
  remember (length s) as n eqn:Hn. revert s Hn.
  induction n as [n IH] using lt_wf_ind. intros s ->.
  assert (IH' : ∀ t, (length t < length s)%nat →
                returns (Utf8.decode_from Utf8.replace t))
    by (intros t Ht; exact (IH _ Ht t eq_refl)).
  clear IH. destruct s as [|ch s1]; [by eexists|].
  cbn [Utf8.decode_from].
  repeat match goal with
  | |- returns (cons _ <$> _) => apply returns_cons, IH'; simpl; lia
  | |- returns (Utf8.on_error _ _) =>
      apply returns_error; first [apply IH'; simpl; lia | by eexists]
  | |- context [match ?l with [] => _ | _ :: _ => _ end] =>
      destruct l; cbv beta iota
  | |- context [if ?b then _ else _] => destruct b
  end.
Qed.

Lemma lossy_of_cons (c : N) (a b : outcome pystr) :
  lossy_of a b → lossy_of (cons c <$> a) (cons c <$> b).
Proof.
  destruct a as [r|e|]; simpl; [intros ->; done | | done].
  intros [-> (r & -> & Hin)]. split; [done|].
  exists (c :: r). split; [done|]. by apply list_elem_of_further.
Qed.

Lemma lossy_of_error (b : outcome pystr) :
  returns b →
  lossy_of (Utf8.on_error Utf8.strict b) (Utf8.on_error Utf8.replace b).
Proof.
  intros [r ->]. simpl. split; [done|].
  exists (Utf8.REPLACEMENT :: r). split; [done|]. apply list_elem_of_here.
Qed.

Lemma decode_from_lossy_of (s : list N) :
  lossy_of (Utf8.decode_from Utf8.strict s) (Utf8.decode_from Utf8.replace s).
Proof.
  remember (length s) as n eqn:Hn. revert s Hn.
  induction n as [n IH] using lt_wf_ind. intros s ->.
  assert (IH' : ∀ t, (length t < length s)%nat →
    lossy_of (Utf8.decode_from Utf8.strict t)
             (Utf8.decode_from Utf8.replace t))
    by (intros t Ht; exact (IH _ Ht t eq_refl)).
  clear IH. destruct s as [|ch s1]; [done|].
  cbn [Utf8.decode_from].
  repeat match goal with
  | |- lossy_of (cons _ <$> _) (cons _ <$> _) =>
      apply lossy_of_cons, IH'; simpl; lia
  | |- lossy_of (Utf8.on_error _ _) (Utf8.on_error _ _) =>
      apply lossy_of_error;
      first [apply decode_from_replace_total | by eexists]
  | |- context [match ?l with [] => _ | _ :: _ => _ end] =>
      destruct l; cbv beta iota
  | |- context [if ?b then _ else _] => destruct b
  end.
Qed.

(** What the decoder returns is made of scalar values. *)
Ltac bool_facts :=
  repeat match goal with
  | H : (_ <? _) = true |- _ => apply N.ltb_lt in H
  | H : (_ <? _) = false |- _ => apply N.ltb_ge in H
  | H : (_ <=? _) = true |- _ => apply N.leb_le in H
  | H : (_ <=? _) = false |- _ => apply N.leb_gt in H
  | H : (_ =? _) = true |- _ => apply N.eqb_eq in H
  | H : (_ =? _) = false |- _ => apply N.eqb_neq in H
  | H : _ || _ = false |- _ => apply orb_false_iff in H as [? ?]
  | H : _ && _ = true |- _ => apply andb_true_iff in H as [? ?]
  | H : negb _ = false |- _ => apply negb_false_iff in H
  | H : Utf8.is_continuation _ = true |- _ => unfold Utf8.is_continuation in H
  | H : (if ?b then _ else _) = false |- _ => destruct b eqn:?
  end.

Ltac scalar_arith :=
  unfold is_scalar, Utf8.ch2_of, Utf8.ch3_of, Utf8.ch4_of;
  rewrite ?N.shiftl_mul_pow2;
  change (2 ^ 6) with 64; change (2 ^ 12) with 4096;
  change (2 ^ 18) with 262144;
  bool_facts; lia.

Lemma all_scalar_cons (c : N) (o : outcome pystr) :
  all_scalar o → is_scalar c → all_scalar (cons c <$> o).
Proof. destruct o; simpl; [by constructor | done | done]. Qed.

Lemma all_scalar_error (o : outcome pystr) :
  all_scalar o → all_scalar (Utf8.on_error Utf8.replace o).
Proof.
  intros H. apply all_scalar_cons; [done|].
  unfold is_scalar, Utf8.REPLACEMENT. lia.
Qed.

Lemma decode_from_replace_scalar (s : list N) :
  all_scalar (Utf8.decode_from Utf8.replace s).
Proof.
  remember (length s) as n eqn:Hn. revert s Hn.
  induction n as [n IH] using lt_wf_ind. intros s ->.
  assert (IH' : ∀ t, (length t < length s)%nat →
                all_scalar (Utf8.decode_from Utf8.replace t))
    by (intros t Ht; exact (IH _ Ht t eq_refl)).
  clear IH. destruct s as [|ch s1]; [by constructor|].
  cbn [Utf8.decode_from].
  repeat match goal with
  | |- all_scalar (cons _ <$> _) =>
      apply all_scalar_cons; [apply IH'; simpl; lia | scalar_arith]
  | |- all_scalar (Utf8.on_error _ _) =>
      apply all_scalar_error;
      first [apply IH'; simpl; lia | by constructor]
  | |- context [match ?l with [] => _ | _ :: _ => _ end] =>
      destruct l; cbv beta iota
  | |- context [if ?b then _ else _] => destruct b eqn:?
  end.
Qed.

(** ** Reading arrays from native memory *)

Lemma range_lookup (n : N) (i : nat) (j : N) :
  range n !! i = Some j ↔ j = N.of_nat i ∧ (i < N.to_nat n)%nat.
Proof.
  unfold range. rewrite list_lookup_fmap, fmap_Some. split.
  - intros (k & [-> ?]%lookup_seq & ->). done.
  - intros [-> ?]. exists i. by rewrite lookup_seq.
Qed.

Lemma length_range (n : N) : length (range n) = N.to_nat n.
Proof. unfold range. by rewrite length_fmap, length_seq. Qed.

(** Reading [n] elements succeeds with [l] exactly when [l] lists the [n]
    elements in index order. *)
Lemma mapM_range_Some {B} (f : N → option B) (n : N) (l : list B) :
  mapM f (range n) = Some l
  ↔ length l = N.to_nat n ∧ ∀ i x, l !! i = Some x → f (N.of_nat i) = Some x.
Proof.
  rewrite mapM_Some. split.
  - intros HF. pose proof (Forall2_length _ _ _ HF) as Hlen.
    rewrite length_range in Hlen. split; [done|]. intros i x Hx.
    assert (Hi : range n !! i = Some (N.of_nat i)).
    { apply range_lookup. split; [done|].
      rewrite Hlen. by eapply lookup_lt_Some. }
    exact (Forall2_lookup_lr _ _ _ _ _ _ HF Hi Hx).
  - intros [Hlen Hl]. apply Forall2_same_length_lookup_2.
    + by rewrite length_range.
    + intros i j x [-> _]%range_lookup Hx. by apply Hl.
Qed.

Lemma load_bytes_at (m : memory) (p : N) (bs : list byte) :
  bytes_at m p bs → load_bytes m p (N.of_nat (length bs)) = Some bs.
Proof.
  intros H. apply mapM_range_Some. split; [by rewrite Nat2N.id|]. exact H.
Qed.

(** ** [CharSlice.to_str] *)

Lemma to_str_unfold (m : memory) (self : CharSlice.t) :
  CharSlice.data self ≠ 0 → CharSlice.len self ≠ 0 →
  CharSlice.to_str m self =
    match load_bytes m (CharSlice.data self) (CharSlice.len self) with
    | None => Segfault
    | Some byte_array => Utf8.decode Utf8.replace byte_array
    end.
Proof.
  intros Hd Hl. unfold CharSlice.to_str.
  apply N.eqb_neq in Hd, Hl. by rewrite Hd, Hl.
Qed.

(** C3.  For a slice whose [data] is not null and whose [len] is positive,
    with [bs] the [len] bytes stored at [data]: [to_str] returns a string,
    the decoding of exactly [bs] as UTF-8 with [errors="replace"].  No
    decoding error is raised: the string is the strict decoding of [bs] when
    [bs] is well-formed UTF-8, and otherwise a string in which U+FFFD stands
    for what is malformed; either way it is made of scalar values. *)
Theorem to_str_decodes_lossy (m : memory) (self : CharSlice.t)
    (bs : list byte) :
  CharSlice.data self ≠ 0 →
  0 < CharSlice.len self →
  CharSlice.len self = N.of_nat (length bs) →
  bytes_at m (CharSlice.data self) bs →
  ∃ s, CharSlice.to_str m self = Return s
       ∧ Utf8.decode Utf8.replace bs = Return s
       ∧ lossy_of (Utf8.decode Utf8.strict bs) (Return s)
       ∧ Forall is_scalar s.
Proof.
  intros Hd Hpos Hlen Hbs.
  destruct (decode_from_replace_total (Byte.to_N <$> bs)) as [s Hs].
  exists s. split; [|split; [|split]].
  - rewrite to_str_unfold by lia.
    rewrite Hlen, (load_bytes_at _ _ _ Hbs). exact Hs.
  - exact Hs.
  - rewrite <- Hs. apply decode_from_lossy_of.
  - pose proof (decode_from_replace_scalar (Byte.to_N <$> bs)) as H.
    by rewrite Hs in H.
Qed.

(** The memory of the example: the four bytes [61 ff 62 63] at address 16. *)
Lemma to_str_decodes_lossy_witness :
  CharSlice.to_str (store_bytes 16 [x61; xff; x62; x63]%byte ∅)
                   (CharSlice.Make 16 4)
  = Return [0x61; 0xFFFD; 0x62; 0x63].
Proof.
  destruct (to_str_decodes_lossy
              (store_bytes 16 [x61; xff; x62; x63]%byte ∅)
              (CharSlice.Make 16 4) [x61; xff; x62; x63]%byte)
    as (s & Hs & Hd & _).
  - simpl. lia.
  - simpl. lia.
  - reflexivity.
  - intros [|[|[|[|i]]]] b Hb; simpl in Hb; inversion Hb; subst;
      vm_compute; reflexivity.
  - rewrite Hs. rewrite <- Hd. reflexivity.
Defined.

(** C9.  A slice whose [data] is null or whose [len] is 0 gives the empty
    string whatever the memory is, even one with no readable address: the
    pointer is not dereferenced.  In general [to_str] returns a string
    whenever the bytes the slice designates are readable, and nothing has to
    be readable for a null or empty slice. *)
Theorem to_str_null_or_empty (m : memory) (self : CharSlice.t) :
  (CharSlice.data self = 0 ∨ CharSlice.len self = 0 →
   CharSlice.to_str m self = Return []
   ∧ CharSlice.to_str ∅ self = Return []
   ∧ slice_readable ∅ self)
  ∧ (slice_readable m self → returns (CharSlice.to_str m self)).
Proof.
  split.
  - intros H. assert (Hb : (CharSlice.data self =? 0)
                           || (CharSlice.len self =? 0) = true).
    { destruct H as [-> | ->]; [done|]. by rewrite orb_true_r. }
    unfold CharSlice.to_str. rewrite Hb. split; [done|]. split; [done|].
    intros ??. destruct H; done.
  - intros Hr. unfold CharSlice.to_str.
    destruct (N.eqb_spec (CharSlice.data self) 0) as [|Hd]; [by eexists|].
    destruct (N.eqb_spec (CharSlice.len self) 0) as [|Hl]; [by eexists|].
    simpl.
    assert (Hsome : is_Some (load_bytes m (CharSlice.data self)
                                          (CharSlice.len self))).
    { apply mapM_is_Some, Forall_lookup. intros i j [-> Hi]%range_lookup.
      simpl. apply Hr; [done | done | lia]. }
    destruct Hsome as [bs ->]. apply decode_from_replace_total.
Qed.

Lemma to_str_null_or_empty_witness :
  CharSlice.to_str ∅ (CharSlice.Make 0 7) = Return []
  ∧ CharSlice.to_str ∅ (CharSlice.Make 4096 0) = Return [].
Proof.
  split.
  - apply (to_str_null_or_empty ∅ (CharSlice.Make 0 7)). left. reflexivity.
  - apply (to_str_null_or_empty ∅ (CharSlice.Make 4096 0)). right.
    reflexivity.
Defined.

(** ** [LogFieldVec.to_list] *)

(** C4.  For a vector whose [ptr] is not null and whose [len] is [n > 0],
    with [fs] the [n] elements stored at indices [0 .. n-1]: [to_list]
    returns exactly [fs], that is [n] fields, the one at position [i] being
    element [i] of the vector.  Nothing is reordered, merged or dropped,
    whatever the keys are. *)
Theorem to_list_in_index_order (m : memory) (self : LogFieldVec.t)
    (fs : list LogField.t) :
  LogFieldVec.ptr self ≠ 0 →
  0 < LogFieldVec.len self →
  LogFieldVec.len self = N.of_nat (length fs) →
  fields_at m self fs →
  LogFieldVec.to_list m self = Return fs
  ∧ ∀ l, LogFieldVec.to_list m self = Return l →
      N.of_nat (length l) = LogFieldVec.len self
      ∧ ∀ i, i < LogFieldVec.len self →
          l !! N.to_nat i = LogFieldVec.getitem m self i
          ∧ is_Some (l !! N.to_nat i).
Proof.
  intros Hp Hpos Hlen Hfs.
  assert (Hl : LogFieldVec.to_list m self = Return fs).
  { unfold LogFieldVec.to_list.
    destruct (N.eqb_spec (LogFieldVec.ptr self) 0) as [|_]; [done|].
    destruct (N.eqb_spec (LogFieldVec.len self) 0) as [|_]; [lia|].
    simpl.
    assert (mapM (LogFieldVec.getitem m self) (range (LogFieldVec.len self))
            = Some fs) as ->; [|done].
    apply mapM_range_Some. split; [lia | exact Hfs]. }
  split; [exact Hl|]. intros l. rewrite Hl. intros [= <-].
  split; [lia|]. intros i Hi.
  assert (Hsome : is_Some (fs !! N.to_nat i)).
  { apply lookup_lt_is_Some. lia. }
  split; [|done]. destruct Hsome as [f Hf]. rewrite Hf.
  symmetry. rewrite <- (N2Nat.id i). by apply Hfs.
Qed.

Lemma to_list_in_index_order_witness :
  LogFieldVec.to_list two_fields_memory two_fields
  = Return [field_k_a; field_k_b].
Proof.
  apply (to_list_in_index_order two_fields_memory two_fields
           [field_k_a; field_k_b]).
  - simpl. lia.
  - simpl. lia.
  - reflexivity.
  - intros [|[|i]] f Hf; simpl in Hf; inversion Hf; subst;
      vm_compute; reflexivity.
Defined.

(** The two fields of the example print with the same key. *)
Example two_fields_lines :
  mapM (field_line two_fields_memory) [field_k_a; field_k_b]
  = Return [lit "  k = a"; lit "  k = b"].
Proof. vm_compute. reflexivity. Qed.

(** ** [log_callback] *)

Lemma level_name_shown (level : Z) : level_name level = shown_level level.
Proof.
  unfold level_name, shown_level, level_names.
  unfold LogLevel.DEBUG, LogLevel.INFO, LogLevel.WARN, LogLevel.ERROR,
    LogLevel.TRACE.
  repeat match goal with
  | |- context [(level =? ?k)%Z] =>
      destruct (Z.eqb_spec level k) as [->|?]; [reflexivity|]
  end.
  by rewrite !lookup_insert_ne, lookup_empty by done.
Qed.

Example level_name_trace : level_name 4 = lit "TRACE".
Proof. reflexivity. Qed.
Example level_name_7 : level_name 7 = lit "UNKNOWN(7)".
Proof. vm_compute. reflexivity. Qed.
Example level_name_minus_1 : level_name (-1) = lit "UNKNOWN(-1)".
Proof. vm_compute. reflexivity. Qed.

(** The outcome of the callback, with the name of the level abstracted. *)
Lemma log_callback_unfold (e : env) (event : LogEvent.t) :
  log_callback e event =
    message ← CharSlice.to_str (mem e) (LogEvent.message event);
    fields ← LogFieldVec.to_list (mem e) (LogEvent.fields event);
    lines ← mapM (field_line (mem e)) fields;
    Return ((lit "[" ++ current_thread e ++ lit "]")
            :: (lit "[" ++ shown_level (LogEvent.level event) ++ lit "] "
                ++ message)
            :: lines).
Proof. unfold log_callback. by rewrite level_name_shown. Qed.

(** C10.  Whatever int the level of the event is, the callback formats it:
    as DEBUG, INFO, WARN, ERROR or TRACE for 0 to 4 and as [UNKNOWN(<level>)]
    for any other value.  When the message and the fields can be read, the
    callback returns, and its second line carries that name; and whether it
    returns does not depend on the level. *)
Theorem log_callback_total_in_level (e : env) (event : LogEvent.t) :
  level_name (LogEvent.level event) = shown_level (LogEvent.level event)
  ∧ (∀ message fields lines,
       CharSlice.to_str (mem e) (LogEvent.message event) = Return message →
       LogFieldVec.to_list (mem e) (LogEvent.fields event) = Return fields →
       mapM (field_line (mem e)) fields = Return lines →
       log_callback e event =
         Return ((lit "[" ++ current_thread e ++ lit "]")
                 :: (lit "[" ++ shown_level (LogEvent.level event) ++ lit "] "
                     ++ message)
                 :: lines))
  ∧ (∀ level',
       returns (log_callback e event)
       ↔ returns (log_callback e
                    (LogEvent.Make level' (LogEvent.message event)
                                   (LogEvent.fields event)))).
Proof.
  split; [apply level_name_shown|]. split.
  - intros message fields lines Hm Hf Hl.
    rewrite log_callback_unfold, Hm. cbn [mbind outcome_bind].
    rewrite Hf. cbn [mbind outcome_bind]. by rewrite Hl.
  - intros level'. rewrite !log_callback_unfold. unfold returns.
    cbn [LogEvent.message LogEvent.fields LogEvent.level].
    destruct (CharSlice.to_str _ _) as [message| |]; cbn [mbind outcome_bind];
      [|split; intros [? [=]] | split; intros [? [=]]].
    destruct (LogFieldVec.to_list _ _) as [fields| |];
      cbn [mbind outcome_bind];
      [|split; intros [? [=]] | split; intros [? [=]]].
    destruct (mapM _ fields) as [lines| |]; cbn [mbind outcome_bind];
      [|split; intros [? [=]] | split; intros [? [=]]].
    split; intros _; by eexists.
Qed.

Lemma log_callback_total_in_level_witness :
  log_callback env_level_9 event_level_9
  = Return [lit "[<_MainThread(MainThread, started 1)>]";
            lit "[UNKNOWN(9)] hi"].
Proof.
  destruct (log_callback_total_in_level env_level_9 event_level_9)
    as (_ & H & _).
  rewrite (H (lit "hi") [] []); reflexivity.
Defined.

(** ** [LogLevel] *)

(** C2.  [LogLevel] has exactly the five attributes DEBUG = 0, INFO = 1,
    WARN = 2, ERROR = 3 and TRACE = 4; in the order of the integers TRACE is
    the greatest of them, above ERROR. *)
Theorem LogLevel_values :
  LogLevel.members
  = [("DEBUG", 0); ("INFO", 1); ("WARN", 2); ("ERROR", 3); ("TRACE", 4)]%Z
  ∧ (LogLevel.DEBUG = 0 ∧ LogLevel.INFO = 1 ∧ LogLevel.WARN = 2
     ∧ LogLevel.ERROR = 3 ∧ LogLevel.TRACE = 4)%Z
  ∧ (LogLevel.ERROR < LogLevel.TRACE)%Z
  ∧ ∀ name v, (name, v) ∈ LogLevel.members →
      (v ≤ LogLevel.TRACE)%Z ∧ (v = LogLevel.TRACE → name = "TRACE"%string).
Proof.
  split; [reflexivity|]. split; [done|]. split; [done|].
  intros name v Hin. unfold LogLevel.members in Hin.
  repeat (apply elem_of_cons in Hin as [[= -> ->]|Hin]; [done|]).
  by apply elem_of_nil in Hin.
Qed.

(** ** The public wrappers *)

Section WrapperProperties.
Context {State callable : Type} (lib : CDLL.t State).
Implicit Types (w : world State callable) (callback : callable) (level : Z).

Lemma check_error_c_void_p (a : N) :
  _check_error (c_void_p a)
  = if a =? 0 then Return tt else Raise (RuntimeError error_message).
Proof.
  unfold _check_error, c_void_p.
  destruct (N.eqb_spec a 0) as [->|Ha]; [done|].
  simpl. apply N.eqb_neq in Ha. by rewrite Ha.
Qed.

Lemma ddog_logger_init_unfold level callback w :
  ddog_logger_init lib level callback w =
    let call :=
      CDLL.ddog_logger_init lib (c_int level) (next_object w) (native w) in
    (_check_error (c_void_p call.1),
     drop_local (next_object w)
       (with_native call.2
          (set_callback_holder (next_object w)
             (CALLBACK_TYPE callback w).2))).
Proof.
  unfold ddog_logger_init. simpl.
  by destruct (CDLL.ddog_logger_init lib _ _ _).
Qed.

Lemma ddog_logger_set_max_log_level_unfold level w :
  ddog_logger_set_max_log_level lib level w =
    let call :=
      CDLL.ddog_logger_set_max_log_level lib (c_int level) (native w) in
    (_check_error (c_void_p call.1), with_native call.2 w).
Proof.
  unfold ddog_logger_set_max_log_level.
  by destruct (CDLL.ddog_logger_set_max_log_level lib _ _).
Qed.

(** C1.  [ddog_logger_init] and [ddog_logger_set_max_log_level] raise
    RuntimeError exactly when the native function they call returns a
    pointer that is not null, and return None exactly when it returns the
    null pointer. *)
Theorem wrappers_raise_iff_non_null level callback w :
  let native_init :=
    (CDLL.ddog_logger_init lib (c_int level) (next_object w) (native w)).1 in
  let native_set :=
    (CDLL.ddog_logger_set_max_log_level lib (c_int level) (native w)).1 in
  ((ddog_logger_init lib level callback w).1
     = Raise (RuntimeError error_message) ↔ native_init ≠ 0)
  ∧ ((ddog_logger_init lib level callback w).1 = Return tt
     ↔ native_init = 0)
  ∧ ((ddog_logger_set_max_log_level lib level w).1
       = Raise (RuntimeError error_message) ↔ native_set ≠ 0)
  ∧ ((ddog_logger_set_max_log_level lib level w).1 = Return tt
     ↔ native_set = 0).
Proof.
  intros native_init native_set.
  rewrite ddog_logger_init_unfold, ddog_logger_set_max_log_level_unfold.
  cbn [fst]. rewrite !check_error_c_void_p.
  fold native_init native_set.
  destruct (N.eqb_spec native_init 0), (N.eqb_spec native_set 0);
    repeat split; intros; congruence.
Qed.

(** C7.  [ddog_logger_set_max_log_level] leaves [_callback_holder] and the
    callback objects as they were, whether it returns or raises; of the
    state only the native part changes, and it becomes what the one native
    call makes of it. *)
Theorem set_max_log_level_keeps_callback level w :
  let r := ddog_logger_set_max_log_level lib level w in
  _callback_holder r.2 = _callback_holder w
  ∧ objects r.2 = objects w
  ∧ next_object r.2 = next_object w
  ∧ native r.2
    = (CDLL.ddog_logger_set_max_log_level lib (c_int level) (native w)).2
  ∧ (r.1 = Return tt ∨ r.1 = Raise (RuntimeError error_message)).
Proof.
  intros r. subst r. rewrite ddog_logger_set_max_log_level_unfold.
  cbn [fst snd]. rewrite check_error_c_void_p.
  repeat split. destruct (_ =? 0); auto.
Qed.

(** *** Reference counts *)

Implicit Types objs : gmap nat (callable * nat).

Lemma lookup_incref_eq (o : nat) objs f n :
  objs !! o = Some (f, n) → incref o objs !! o = Some (f, S n).
Proof. intros H. unfold incref. by rewrite lookup_alter_eq, H. Qed.

Lemma lookup_incref_ne (o o' : nat) objs :
  o ≠ o' → incref o objs !! o' = objs !! o'.
Proof. intros H. unfold incref. by rewrite lookup_alter_ne. Qed.

Lemma lookup_decref_ne (o o' : nat) objs :
  o ≠ o' → decref o objs !! o' = objs !! o'.
Proof.
  intros H. unfold decref.
  destruct (objs !! o) as [[f [|[|n]]]|] eqn:E;
    by rewrite ?lookup_delete_ne, ?lookup_insert_ne.
Qed.

Lemma lookup_decref_shared (o : nat) objs f n :
  objs !! o = Some (f, S (S n)) → decref o objs !! o = Some (f, S n).
Proof. intros H. unfold decref. by rewrite H, lookup_insert_eq. Qed.


Lemma decref_is_Some (o o' : nat) objs :
  is_Some (decref o objs !! o') → is_Some (objs !! o').
Proof.
  destruct (decide (o = o')) as [<-|Hne].
  - unfold decref. destruct (objs !! o) as [[f [|[|n]]]|] eqn:E;
      rewrite ?lookup_delete_eq, ?E; eauto; by intros [? [=]].
  - by rewrite lookup_decref_ne.
Qed.

Lemma incref_is_Some (o o' : nat) objs :
  is_Some (incref o objs !! o') → is_Some (objs !! o').
Proof.
  destruct (decide (o = o')) as [<-|Hne].
  - unfold incref. rewrite lookup_alter_eq.
    destruct (objs !! o); [eauto | by intros [? [=]]].
  - by rewrite lookup_incref_ne.
Qed.

(** *** The callback object across calls *)

(** The objects after [ddog_logger_init], in a well-formed state. *)
Lemma init_objects level callback w :
  world_ok w →
  objects (ddog_logger_init lib level callback w).2 !! next_object w
  = Some (callback, 1%nat).
Proof.
  intros [Hlt Hholder]. rewrite ddog_logger_init_unfold. cbn.
  apply lookup_decref_shared.
  assert (Hnew : incref (next_object w)
                   (<[next_object w := (callback, 1%nat)]> (objects w))
                 !! next_object w = Some (callback, 2%nat)).
  { apply lookup_incref_eq, lookup_insert_eq. }
  destruct (_callback_holder w) as [old|] eqn:Hold; [|exact Hnew].
  rewrite lookup_decref_ne; [exact Hnew|].
  destruct (Hholder old eq_refl) as [f Hf].
  assert (old < next_object w)%nat by (apply Hlt; eauto). lia.
Qed.

Lemma init_holder level callback w :
  _callback_holder (ddog_logger_init lib level callback w).2
  = Some (next_object w).
Proof. by rewrite ddog_logger_init_unfold. Qed.

Lemma init_next_object level callback w :
  next_object (ddog_logger_init lib level callback w).2
  = S (next_object w).
Proof. by rewrite ddog_logger_init_unfold. Qed.

(** The calls other than [ddog_logger_init] touch the native state only. *)
Lemma other_call_frame (c : call callable) w :
  is_init c = false →
  _callback_holder (run_call lib c w).2 = _callback_holder w
  ∧ objects (run_call lib c w).2 = objects w
  ∧ next_object (run_call lib c w).2 = next_object w.
Proof.
  destruct c as [level callback|level| |]; [done| | |]; intros _; simpl.
  - by rewrite ddog_logger_set_max_log_level_unfold.
  - done.
  - done.
Qed.

Lemma other_calls_frame (cs : list (call callable)) w :
  forallb (λ c, negb (is_init c)) cs = true →
  _callback_holder (run_calls lib cs w) = _callback_holder w
  ∧ objects (run_calls lib cs w) = objects w.
Proof.
  revert w. induction cs as [|c cs IH]; intros w; [done|].
  simpl. intros [Hc Hcs]%andb_true_iff. apply negb_true_iff in Hc.
  destruct (other_call_frame c w Hc) as (Hh & Ho & _).
  destruct (IH (run_call lib c w).2 Hcs) as [IHh IHo].
  unfold run_calls in *. simpl. by rewrite IHh, IHo, Hh, Ho.
Qed.

(** Every call keeps the state well formed. *)
Lemma run_call_ok (c : call callable) w :
  world_ok w → world_ok (run_call lib c w).2.
Proof.
  intros Hok. destruct (is_init c) eqn:Hc.
  - destruct c as [level callback| | |]; try done. simpl. split.
    + intros o. rewrite init_next_object.
      rewrite ddog_logger_init_unfold. cbn.
      intros Ho%decref_is_Some.
      assert (is_Some (incref (next_object w)
                (<[next_object w := (callback, 1%nat)]> (objects w)) !! o))
        as Ho'%incref_is_Some.
      { destruct (_callback_holder w); [by eapply decref_is_Some | done]. }
      destruct (decide (next_object w = o)) as [<-|Hne]; [lia|].
      rewrite lookup_insert_ne in Ho' by done.
      destruct Hok as [Hlt _]. specialize (Hlt o Ho'). lia.
    + intros cb. rewrite init_holder. intros [= <-].
      exists callback. by apply init_objects.
  - destruct (other_call_frame c w Hc) as (Hh & Ho & Hn).
    destruct Hok as [Hlt Hholder]. split.
    + intros o. rewrite Ho, Hn. apply Hlt.
    + intros cb. rewrite Hh, Ho. apply Hholder.
Qed.

Lemma run_calls_ok (cs : list (call callable)) w :
  world_ok w → world_ok (run_calls lib cs w).
Proof.
  revert w. induction cs as [|c cs IH]; intros w Hok; [done|].
  apply (IH (run_call lib c w).2). by apply run_call_ok.
Qed.

Lemma loaded_ok (s : State) : world_ok (loaded (callable:=callable) s).
Proof. split; simpl; [intros o [? H] | intros cb H]; done. Qed.

End WrapperProperties.

Section CallbackHolder.
Context {State callable : Type} (lib : CDLL.t State).
Implicit Types (w : world State callable) (callback : callable) (level : Z).

(** C5.  In a well-formed state, [ddog_logger_init] leaves in
    [_callback_holder] a new callback object that wraps [callback], whatever
    was held before and whether the call returns or raises.  The object stays
    live, held by the global, through every later call of the other wrappers;
    the next call of [ddog_logger_init] puts another object in its place. *)
Theorem init_holds_callback level callback w :
  world_ok w →
  let w' := (ddog_logger_init lib level callback w).2 in
  let cb := next_object w in
  _callback_holder w' = Some cb
  ∧ objects w !! cb = None
  ∧ _callback_holder w ≠ Some cb
  ∧ objects w' !! cb = Some (callback, 1%nat)
  ∧ ∀ cs, forallb (λ c, negb (is_init c)) cs = true →
      (_callback_holder (run_calls lib cs w') = Some cb
       ∧ objects (run_calls lib cs w') !! cb = Some (callback, 1%nat))
      ∧ ∀ level2 callback2,
          ∃ cb2, cb2 ≠ cb
            ∧ _callback_holder
                (ddog_logger_init lib level2 callback2
                   (run_calls lib cs w')).2 = Some cb2.
Proof.
  intros Hok w' cb.
  assert (Hfresh : objects w !! cb = None).
  { destruct (objects w !! cb) eqn:E; [|done].
    destruct Hok as [Hlt _]. specialize (Hlt cb). subst cb.
    rewrite E in Hlt. specialize (Hlt (mk_is_Some _ _ eq_refl)). lia. }
  split; [apply init_holder|]. split; [exact Hfresh|]. split.
  { intros Hh. destruct Hok as [_ Hholder].
    destruct (Hholder cb Hh) as [f Hf]. congruence. }
  split; [by apply init_objects|].
  intros cs Hcs. destruct (other_calls_frame lib cs w' Hcs) as [Hh Ho].
  split.
  - rewrite Hh, Ho. split; [apply init_holder | by apply init_objects].
  - intros level2 callback2. eexists. split; [|apply init_holder].
    assert (Hn : ∀ cs w0, forallb (λ c, negb (is_init c)) cs = true →
                   next_object (run_calls lib cs w0) = next_object w0).
    { clear. induction cs as [|c cs IH]; intros w0; [done|].
      simpl. intros [Hc Hcs]%andb_true_iff. apply negb_true_iff in Hc.
      destruct (other_call_frame lib c w0 Hc) as (_ & _ & Hn).
      unfold run_calls in *. simpl. by rewrite IH, Hn. }
    rewrite Hn by done. subst w' cb. rewrite init_next_object. lia.
Qed.

(** C6, as the code has it.  [ddog_logger_init] hands the level and the
    callback object to the native library in one native call: the native
    state after the wrapper is what that single call makes of it, and the
    wrapper returns exactly when the call gives the null pointer and raises
    RuntimeError exactly when it gives an error.  When the wrapper returns,
    the registration has taken effect on the Python side as well:
    [_callback_holder] holds the new callback object, which in a well-formed
    state is live and wraps [callback]. *)
Theorem init_one_native_call level callback w :
  let call :=
    CDLL.ddog_logger_init lib (c_int level) (next_object w) (native w) in
  let r := ddog_logger_init lib level callback w in
  native r.2 = call.2
  ∧ (r.1 = Return tt ↔ call.1 = 0)
  ∧ (r.1 = Raise (RuntimeError error_message) ↔ call.1 ≠ 0)
  ∧ (r.1 = Return tt →
     _callback_holder r.2 = Some (next_object w)
     ∧ (world_ok w →
        objects r.2 !! next_object w = Some (callback, 1%nat))).
Proof.
  intros call r.
  pose proof (init_holder lib level callback w) as Hh.
  pose proof (init_objects lib level callback w) as Ho.
  assert (Hn : native r.2 = call.2)
    by (subst r; by rewrite ddog_logger_init_unfold).
  assert (Hr : r.1 = if call.1 =? 0 then Return tt
                     else Raise (RuntimeError error_message)).
  { subst r. rewrite ddog_logger_init_unfold. cbn [fst].
    by rewrite check_error_c_void_p. }
  split; [exact Hn|]. rewrite Hr.
  destruct (N.eqb_spec call.1 0) as [Hz|Hz].
  - split; [done|]. split; [done|]. intros _. by split.
  - split; [done|]. split; [done|]. done.
Qed.

End CallbackHolder.

Lemma init_holds_callback_witness :
  _callback_holder
    (run_calls accepting_lib [SetMaxLogLevel 2; TriggerLogsWithArgs]
       (ddog_logger_init accepting_lib LogLevel.DEBUG
          (log_callback : callback_type) (loaded 0%nat)).2)
  = Some 0%nat.
Proof.
  assert (Hok : world_ok (loaded (callable := callback_type) 0%nat)).
  { split; simpl; [intros o [x Hx] | intros cb Hcb]; done. }
  destruct (init_holds_callback accepting_lib LogLevel.DEBUG
              (log_callback : callback_type) (loaded 0%nat) Hok)
    as (_ & _ & _ & _ & H).
  destruct (H [SetMaxLogLevel 2; TriggerLogsWithArgs] eq_refl) as [[Hh _] _].
  exact Hh.
Defined.

Lemma init_one_native_call_witness :
  (ddog_logger_init accepting_lib LogLevel.INFO
     (log_callback : callback_type) (loaded 0%nat)).1 = Return tt
  ∧ native (ddog_logger_init accepting_lib LogLevel.INFO
              (log_callback : callback_type) (loaded 0%nat)).2 = 1%nat
  ∧ _callback_holder
      (ddog_logger_init accepting_lib LogLevel.INFO
         (log_callback : callback_type) (loaded 0%nat)).2 = Some 0%nat.
Proof.
  destruct (init_one_native_call accepting_lib LogLevel.INFO
              (log_callback : callback_type) (loaded 0%nat))
    as (Hn & Hret & _ & Hheld).
  assert (Hr : (ddog_logger_init accepting_lib LogLevel.INFO
                  (log_callback : callback_type) (loaded 0%nat)).1
               = Return tt) by (apply Hret; reflexivity).
  split; [exact Hr|]. split; [rewrite Hn; reflexivity|].
  destruct (Hheld Hr) as [Hh _]. exact Hh.
Defined.

(** C6, as stated, fails: with a native library that refuses the
    registration, [ddog_logger_init] raises, and yet [_callback_holder], which
    was [None], now holds the new callback object. *)
Lemma init_failure_changes_holder :
  let w := loaded (callable := callback_type) tt in
  let r := ddog_logger_init refusing_lib LogLevel.DEBUG log_callback w in
  r.1 = Raise (RuntimeError error_message)
  ∧ native r.2 = native w
  ∧ _callback_holder w = None
  ∧ _callback_holder r.2 = Some 0%nat
  ∧ r.2 ≠ w.
Proof. repeat split. intros [=]. Qed.

(** A second registration that the native library refuses still replaces the
    object held: the object of the first registration, the one the native
    side keeps, is freed. *)
Example refused_init_frees_first :
  let w1 :=
    (ddog_logger_init first_wins_lib LogLevel.DEBUG
       (log_callback : callback_type) (loaded None)).2 in
  let r := ddog_logger_init first_wins_lib LogLevel.WARN log_callback w1 in
  native w1 = Some 0%nat
  ∧ r.1 = Raise (RuntimeError error_message)
  ∧ native r.2 = Some 0%nat
  ∧ _callback_holder r.2 = Some 1%nat
  ∧ objects r.2 !! 0%nat = None.
Proof. vm_compute. repeat split. Qed.

(** ** The emission API *)

(** C8.  With a sink registered, [emit(L, msg)] invokes it if and only if
    [L] is at or above the threshold; it then invokes it exactly once, with
    the Event of level [L], message [msg] and no field, within the call.
    Below the threshold no sink is invoked. *)
Theorem emit_iff_at_or_above {Sink} (lg : Core.logger Sink) (s : Sink)
    (l : Core.Level) (msg : pystr) :
  Core.sink lg = Some s →
  ((Core.value_of (Core.threshold lg) ≤ Core.value_of l)%Z →
   Core.emit lg l msg = [(s, Core.MkEvent l msg [])])
  ∧ ((Core.value_of l < Core.value_of (Core.threshold lg))%Z →
     Core.emit lg l msg = [])
  ∧ (length (Core.emit lg l msg) = 1%nat
     ↔ (Core.value_of (Core.threshold lg) ≤ Core.value_of l)%Z)
  ∧ (Core.emit lg l msg ≠ [] ↔ Core.at_or_above l (Core.threshold lg) = true).
Proof.
  intros Hs. unfold Core.emit, Core.emit_with_fields, Core.at_or_above.
  rewrite Hs.
  destruct (Z.leb_spec (Core.value_of (Core.threshold lg)) (Core.value_of l));
    repeat split; intros; simpl in *; try done; try lia.
Qed.

Lemma emit_iff_at_or_above_witness :
  Core.emit (Core.init Core.Warn 7%nat (Core.Logger Core.Debug None))
            Core.Error (lit "y")
  = [(7%nat, Core.MkEvent Core.Error (lit "y") [])]
  ∧ Core.emit (Core.init Core.Warn 7%nat (Core.Logger Core.Debug None))
              Core.Info (lit "x")
    = [].
Proof.
  split.
  - apply (emit_iff_at_or_above
             (Core.init Core.Warn 7%nat (Core.Logger Core.Debug None)) 7%nat);
      [reflexivity | simpl; unfold LogLevel.WARN, LogLevel.ERROR; lia].
  - apply (emit_iff_at_or_above
             (Core.init Core.Warn 7%nat (Core.Logger Core.Debug None)) 7%nat);
      [reflexivity | simpl; unfold LogLevel.WARN, LogLevel.INFO; lia].
Defined.

(** Trace is above every other level in this order: a threshold of Error lets
    Trace through. *)
Example emit_trace_over_error :
  Core.emit (Core.Logger Core.Error (Some 7%nat)) Core.Trace (lit "t")
  = [(7%nat, Core.MkEvent Core.Trace (lit "t") [])].
Proof. reflexivity. Qed.

(** The order of the fields is the one given. *)
Example emit_with_fields_order :
  Core.emit_with_fields (Core.Logger Core.Debug (Some 7%nat)) Core.Info
    (lit "m") [Core.MkField (lit "a") (lit "1");
               Core.MkField (lit "b") (lit "2")]
  = [(7%nat, Core.MkEvent Core.Info (lit "m")
               [Core.MkField (lit "a") (lit "1");
                Core.MkField (lit "b") (lit "2")])].
Proof. reflexivity. Qed.

(** * Further properties of the script *)

(** ** [CharSlice.to_str]: what it reads *)

Lemma elem_of_range (n j : N) : j ∈ range n ↔ j < n.
Proof.
  rewrite list_elem_of_lookup. split.
  - intros [i [-> Hi]%range_lookup]. lia.
  - intros Hj. exists (N.to_nat j). apply range_lookup. split; lia.
Qed.

Lemma mapM_option_ext {A B} (f g : A → option B) (l : list A) :
  (∀ x, x ∈ l → f x = g x) → mapM f l = mapM g l.
Proof.
  induction l as [|x l IH]; intros H; [done|]. simpl.
  rewrite (H x) by apply list_elem_of_here.
  rewrite IH; [done|]. intros y Hy. apply H. by apply list_elem_of_further.
Qed.

(** X2.  [to_str] depends on memory only through the [len] bytes at [data]:
    two memories that agree there give the same outcome. *)
Theorem to_str_reads_only_slice (m m' : memory) (self : CharSlice.t) :
  (∀ i, i < CharSlice.len self →
        m !! ptr_add (CharSlice.data self) i
        = m' !! ptr_add (CharSlice.data self) i) →
  CharSlice.to_str m self = CharSlice.to_str m' self.
Proof.
  intros H. unfold CharSlice.to_str, load_bytes.
  rewrite (mapM_option_ext _ (λ i, m' !! ptr_add (CharSlice.data self) i));
    [done|].
  intros i Hi. apply H. by apply elem_of_range.
Qed.

Lemma to_str_reads_only_slice_witness :
  CharSlice.to_str (store_bytes 16 (ascii_bytes "ab") ∅) (CharSlice.Make 16 1)
  = CharSlice.to_str (store_bytes 16 (ascii_bytes "a") ∅)
                     (CharSlice.Make 16 1).
Proof.
  apply (to_str_reads_only_slice (store_bytes 16 (ascii_bytes "ab") ∅)
           (store_bytes 16 (ascii_bytes "a") ∅) (CharSlice.Make 16 1)).
  intros i Hi. simpl in Hi. assert (i = 0) as -> by lia. reflexivity.
Defined.

(** ** [CharSlice.to_str]: what the string is *)

Lemma decode_from_ascii (e : Utf8.errors) (s : list N) :
  Forall (λ c, c < 0x80) s → Utf8.decode_from e s = Return s.
Proof.
  induction 1 as [|c s Hc _ IH]; [done|].
  cbn [Utf8.decode_from]. apply N.ltb_lt in Hc. by rewrite Hc, IH.
Qed.

(** X3.  On a slice that is not null and whose bytes are all ASCII (below
    0x80), [to_str] returns exactly those bytes as characters, one for
    one. *)
Theorem to_str_ascii (m : memory) (self : CharSlice.t) (bs : list byte) :
  CharSlice.data self ≠ 0 →
  CharSlice.len self = N.of_nat (length bs) →
  bytes_at m (CharSlice.data self) bs →
  Forall (λ b, Byte.to_N b < 0x80) bs →
  CharSlice.to_str m self = Return (Byte.to_N <$> bs).
Proof.
  intros Hd Hlen Hbs Hascii. unfold CharSlice.to_str.
  apply N.eqb_neq in Hd. rewrite Hd. simpl.
  destruct (N.eqb_spec (CharSlice.len self) 0) as [Hl|Hl].
  { destruct bs; [done | simpl in Hlen; lia]. }
  rewrite Hlen, (load_bytes_at _ _ _ Hbs).
  apply decode_from_ascii. by apply Forall_fmap.
Qed.

Lemma to_str_ascii_witness :
  CharSlice.to_str (store_bytes 64 (ascii_bytes "INFO") ∅)
                   (CharSlice.Make 64 4)
  = Return (lit "INFO").
Proof.
  apply (to_str_ascii (store_bytes 64 (ascii_bytes "INFO") ∅)
           (CharSlice.Make 64 4) (ascii_bytes "INFO")).
  - simpl. lia.
  - reflexivity.
  - intros [|[|[|[|i]]]] b Hb; simpl in Hb; inversion Hb; subst;
      vm_compute; reflexivity.
  - repeat constructor.
Defined.

Lemma at_most_cons (n : nat) (c : N) (o : outcome pystr) :
  at_most n o → at_most (S n) (cons c <$> o).
Proof. destruct o; simpl; lia. Qed.

Lemma at_most_le (n n' : nat) (o : outcome pystr) :
  at_most n o → (n ≤ n')%nat → at_most n' o.
Proof. destruct o; simpl; lia. Qed.

(** The decoder gives at most one character per byte. *)
Lemma decode_from_at_most (e : Utf8.errors) (s : list N) :
  at_most (length s) (Utf8.decode_from e s).
Proof.
  remember (length s) as n eqn:Hn. revert s Hn.
  induction n as [n IH] using lt_wf_ind. intros s ->.
  assert (IH' : ∀ t, (length t < length s)%nat →
                at_most (length t) (Utf8.decode_from e t))
    by (intros t Ht; exact (IH _ Ht t eq_refl)).
  clear IH. destruct s as [|ch s1]; [simpl; lia|].
  cbn [Utf8.decode_from]. unfold Utf8.on_error. destruct e.
  all: repeat match goal with
  | |- at_most _ (Raise _) => exact I
  | |- at_most _ (cons _ <$> Return []) => simpl; lia
  | |- at_most _ (cons _ <$> Utf8.decode_from _ ?t) =>
      apply (at_most_le (S (length t)));
      [apply at_most_cons, IH'; simpl; lia | simpl; lia]
  | |- context [match ?l with [] => _ | _ :: _ => _ end] =>
      destruct l; cbv beta iota
  | |- context [if ?b then _ else _] => destruct b
  end.
Qed.

(** With [errors="replace"] a non-empty input gives a non-empty string. *)
Lemma decode_from_not_empty (ch : N) (s : list N) :
  not_empty (Utf8.decode_from Utf8.replace (ch :: s)).
Proof.
  cbn [Utf8.decode_from]. unfold Utf8.on_error.
  repeat match goal with
  | |- not_empty (cons _ <$> ?o) => by destruct o
  | |- context [match ?l with [] => _ | _ :: _ => _ end] =>
      destruct l; cbv beta iota
  | |- context [if ?b then _ else _] => destruct b
  end.
Qed.

(** X4.  On a slice that is not null and whose [len] bytes are readable,
    [to_str] returns the empty string only when [len] is 0, and never more
    characters than there are bytes. *)
Theorem to_str_length (m : memory) (self : CharSlice.t) (bs : list byte)
    (s : pystr) :
  CharSlice.data self ≠ 0 →
  CharSlice.len self = N.of_nat (length bs) →
  bytes_at m (CharSlice.data self) bs →
  CharSlice.to_str m self = Return s →
  (s = [] ↔ CharSlice.len self = 0) ∧ (length s ≤ length bs)%nat.
Proof.
  intros Hd Hlen Hbs. unfold CharSlice.to_str.
  apply N.eqb_neq in Hd. rewrite Hd. simpl.
  destruct (N.eqb_spec (CharSlice.len self) 0) as [Hl|Hl].
  { intros [= <-]. split; [done | simpl; lia]. }
  rewrite Hlen, (load_bytes_at _ _ _ Hbs). unfold Utf8.decode. intros Hs.
  split.
  - split; [|intros; lia]. intros ->.
    destruct bs as [|b bs]; [simpl in *; lia|].
    pose proof (decode_from_not_empty (Byte.to_N b) (Byte.to_N <$> bs)) as H.
    rewrite fmap_cons in Hs. by rewrite Hs in H.
  - pose proof (decode_from_at_most Utf8.replace (Byte.to_N <$> bs)) as H.
    rewrite Hs in H. simpl in H. by rewrite length_fmap in H.
Qed.

Lemma to_str_length_witness :
  (length ([0x61; 0xFFFD; 0x62; 0x63]%N : pystr) ≤ 4)%nat.
Proof.
  apply (to_str_length (store_bytes 16 [x61; xff; x62; x63]%byte ∅)
           (CharSlice.Make 16 4) [x61; xff; x62; x63]%byte
           [0x61; 0xFFFD; 0x62; 0x63]).
  - simpl. lia.
  - reflexivity.
  - intros [|[|[|[|i]]]] b Hb; simpl in Hb; inversion Hb; subst;
      vm_compute; reflexivity.
  - reflexivity.
Defined.

(** ** [LogFieldVec.to_list] *)

Lemma to_list_null (m : memory) (self : LogFieldVec.t) :
  LogFieldVec.ptr self = 0 ∨ LogFieldVec.len self = 0 →
  LogFieldVec.to_list m self = Return [].
Proof.
  intros H. unfold LogFieldVec.to_list.
  destruct H as [-> | ->]; [done | by rewrite orb_true_r].
Qed.

Lemma to_list_unfold (m : memory) (self : LogFieldVec.t) :
  LogFieldVec.ptr self ≠ 0 → LogFieldVec.len self ≠ 0 →
  LogFieldVec.to_list m self =
    match mapM (LogFieldVec.getitem m self) (range (LogFieldVec.len self)) with
    | None => Segfault
    | Some l => Return l
    end.
Proof.
  intros Hp Hl. unfold LogFieldVec.to_list.
  apply N.eqb_neq in Hp, Hl. by rewrite Hp, Hl.
Qed.

Lemma to_list_length (m : memory) (self : LogFieldVec.t)
    (l : list LogField.t) :
  LogFieldVec.to_list m self = Return l →
  length l = if (LogFieldVec.ptr self =? 0) || (LogFieldVec.len self =? 0)
             then 0%nat else N.to_nat (LogFieldVec.len self).
Proof.
  unfold LogFieldVec.to_list. destruct (_ || _); [by intros [= <-]|].
  destruct (mapM _ _) as [l'|] eqn:E; [|done]. intros [= <-].
  by apply mapM_range_Some in E as [? _].
Qed.

(** X5.  [to_list] returns the empty list exactly for a vector whose [ptr]
    is null or whose [len] is 0, and for such a vector it does so in every
    memory, even one with no readable address: nothing is read. *)
Theorem to_list_empty_iff (m : memory) (self : LogFieldVec.t) :
  (LogFieldVec.to_list m self = Return []
   ↔ LogFieldVec.ptr self = 0 ∨ LogFieldVec.len self = 0)
  ∧ (LogFieldVec.ptr self = 0 ∨ LogFieldVec.len self = 0 →
     LogFieldVec.to_list ∅ self = Return []).
Proof.
  split; [|apply to_list_null]. split; [|apply to_list_null].
  intros Hl%to_list_length. simpl in Hl.
  destruct (N.eqb_spec (LogFieldVec.ptr self) 0) as [|_]; [by left|].
  destruct (N.eqb_spec (LogFieldVec.len self) 0) as [|_]; [by right|].
  simpl in Hl. lia.
Qed.

Lemma to_list_empty_iff_witness :
  LogFieldVec.to_list ∅ (LogFieldVec.Make 0 3 8) = Return []
  ∧ LogFieldVec.to_list ∅ (LogFieldVec.Make 4096 0 8) = Return [].
Proof.
  split.
  - apply (to_list_empty_iff ∅ (LogFieldVec.Make 0 3 8)). left. reflexivity.
  - apply (to_list_empty_iff ∅ (LogFieldVec.Make 4096 0 8)). right.
    reflexivity.
Defined.

(** X6.  The list [to_list] returns has [len] entries (none when [ptr] is
    null), and [capacity] plays no part: two vectors that differ in
    [capacity] only give the same outcome. *)
Theorem to_list_len_not_capacity (m : memory) (p n c c' : N)
    (l : list LogField.t) :
  LogFieldVec.to_list m (LogFieldVec.Make p n c)
  = LogFieldVec.to_list m (LogFieldVec.Make p n c')
  ∧ (LogFieldVec.to_list m (LogFieldVec.Make p n c) = Return l →
     N.of_nat (length l) = if p =? 0 then 0 else n).
Proof.
  split; [done|]. intros Hl%to_list_length. simpl in Hl. rewrite Hl.
  destruct (N.eqb_spec p 0); simpl; [done|].
  destruct (N.eqb_spec n 0); simpl; lia.
Qed.

Lemma to_list_len_not_capacity_witness :
  N.of_nat (length [field_k_a; field_k_b]) = 2.
Proof.
  apply (to_list_len_not_capacity two_fields_memory 256 2 2 0
           [field_k_a; field_k_b]).
  vm_compute. reflexivity.
Defined.

(** ** [log_callback] *)

Lemma mapM_outcome_Return {A B} (f : A → outcome B) (l : list A)
    (k : list B) :
  mapM f l = Return k ↔ Forall2 (λ x y, f x = Return y) l k.
Proof.
  revert k. induction l as [|x l IH]; intros k; simpl.
  - split; [intros [= <-]; constructor | by inversion 1].
  - split.
    + destruct (f x) as [y| |] eqn:Hx; simpl; [|done|done].
      destruct (mapM f l) as [k'| |] eqn:Hl; simpl; [|done|done].
      intros [= <-]. constructor; [done | by apply IH].
    + inversion 1 as [|? y ? k' Hx Hl]; subst.
      rewrite Hx. simpl. apply IH in Hl. by rewrite Hl.
Qed.

(** What a returning callback has gone through. *)
Lemma log_callback_Return (e : env) (event : LogEvent.t)
    (out : list pystr) :
  log_callback e event = Return out →
  ∃ message fields lines,
    CharSlice.to_str (mem e) (LogEvent.message event) = Return message
    ∧ LogFieldVec.to_list (mem e) (LogEvent.fields event) = Return fields
    ∧ Forall2 (λ f line, field_line (mem e) f = Return line) fields lines
    ∧ out = (lit "[" ++ current_thread e ++ lit "]")
            :: (lit "[" ++ shown_level (LogEvent.level event) ++ lit "] "
                ++ message)
            :: lines.
Proof.
  rewrite log_callback_unfold.
  destruct (CharSlice.to_str _ _) as [message| |];
    cbn [mbind outcome_bind]; [|done|done].
  destruct (LogFieldVec.to_list _ _) as [fields| |];
    cbn [mbind outcome_bind]; [|done|done].
  destruct (mapM _ fields) as [lines| |] eqn:Hl; cbn [mbind outcome_bind];
    [|done|done].
  intros [= <-]. exists message, fields, lines.
  by apply mapM_outcome_Return in Hl.
Qed.

(** X8.  When [log_callback] returns it has printed the line of the thread
    first, then the line of the level and message, then one line per field:
    two lines plus [len] of the vector (plus none when its [ptr] is
    null). *)
Theorem log_callback_line_count (e : env) (event : LogEvent.t)
    (out : list pystr) :
  log_callback e event = Return out →
  length out = (2 + field_count (LogEvent.fields event))%nat
  ∧ out !! 0%nat = Some (lit "[" ++ current_thread e ++ lit "]").
Proof.
  intros (message & fields & lines & _ & Hf & Hl & ->)%log_callback_Return.
  split; [|done]. simpl. f_equal. f_equal.
  rewrite <- (Forall2_length _ _ _ Hl). exact (to_list_length _ _ _ Hf).
Qed.

Lemma log_callback_line_count_witness :
  length [lit "[t]"; lit "[INFO] "; lit "  k = a"; lit "  k = b"]
  = (2 + field_count two_fields)%nat.
Proof.
  apply (log_callback_line_count env_two_fields event_two_fields).
  vm_compute. reflexivity.
Defined.

(** X9.  When [log_callback] returns, the line after the first two lines
    that has index [i] is the one of element [i] of the vector: its key and
    its value, each decoded by [to_str], as ["  key = value"]. *)
Theorem log_callback_fields_in_order (e : env) (event : LogEvent.t)
    (out : list pystr) (i : N) :
  log_callback e event = Return out →
  LogFieldVec.ptr (LogEvent.fields event) ≠ 0 →
  i < LogFieldVec.len (LogEvent.fields event) →
  ∃ f key value,
    LogFieldVec.getitem (mem e) (LogEvent.fields event) i = Some f
    ∧ CharSlice.to_str (mem e) (LogField.key f) = Return key
    ∧ CharSlice.to_str (mem e) (LogField.value f) = Return value
    ∧ out !! (2 + N.to_nat i)%nat
      = Some (lit "  " ++ key ++ lit " = " ++ value).
Proof.
  intros (message & fields & lines & _ & Hf & Hl & ->)%log_callback_Return
    Hp Hi.
  rewrite to_list_unfold in Hf by lia.
  destruct (mapM _ _) as [l|] eqn:E; [|done]. injection Hf as ->.
  apply mapM_range_Some in E as [Hlen Hget].
  destruct (lookup_lt_is_Some_2 fields (N.to_nat i)) as [f Hfi]; [lia|].
  destruct (Forall2_lookup_l _ _ _ _ _ Hl Hfi) as (line & Hline & Hfl).
  exists f. unfold field_line in Hfl.
  destruct (CharSlice.to_str (mem e) (LogField.key f)) as [key| |];
    cbn [mbind outcome_bind] in Hfl; [|done|done].
  destruct (CharSlice.to_str (mem e) (LogField.value f)) as [value| |];
    cbn [mbind outcome_bind] in Hfl; [|done|done].
  injection Hfl as <-. exists key, value.
  split; [|done]. rewrite <- (N2Nat.id i). by apply Hget.
Qed.

Lemma log_callback_fields_in_order_witness :
  ∃ f key value,
    LogFieldVec.getitem two_fields_memory two_fields 1 = Some f
    ∧ CharSlice.to_str two_fields_memory (LogField.key f) = Return key
    ∧ CharSlice.to_str two_fields_memory (LogField.value f) = Return value
    ∧ [lit "[t]"; lit "[INFO] "; lit "  k = a"; lit "  k = b"] !! 3%nat
      = Some (lit "  " ++ key ++ lit " = " ++ value).
Proof.
  apply (log_callback_fields_in_order env_two_fields event_two_fields
           [lit "[t]"; lit "[INFO] "; lit "  k = a"; lit "  k = b"] 1).
  - vm_compute. reflexivity.
  - simpl. lia.
  - simpl. lia.
Defined.

(** *** The name of the level *)

Lemma lit_inj (s1 s2 : string) : lit s1 = lit s2 → s1 = s2.
Proof.
  unfold lit. intros H.
  assert (Inj (=) (=) N_of_ascii) as Hinj.
  { intros a b Hab. rewrite <- (ascii_N_embedding a), <- (ascii_N_embedding b).
    by rewrite Hab. }
  apply (inj (fmap N_of_ascii)) in H.
  rewrite <- (string_of_list_ascii_of_string s1),
          <- (string_of_list_ascii_of_string s2).
  by rewrite H.
Qed.

Lemma unknown_head (x : pystr) : ∃ t, lit "UNKNOWN(" ++ x = 85 :: t.
Proof. by eexists. Qed.

Lemma unknown_inj (a b : Z) :
  lit "UNKNOWN(" ++ str_of_int a ++ lit ")"
  = lit "UNKNOWN(" ++ str_of_int b ++ lit ")" → a = b.
Proof.
  intros H. apply app_inv_head, app_inv_tail in H.
  apply lit_inj in H. by apply (inj pretty) in H.
Qed.

(** X10.  The name [log_callback] shows for a level tells the level: two
    ints that are shown alike are the same int.  In particular no
    [UNKNOWN(...)] reads as one of the five names. *)
Theorem level_name_inj (a b : Z) : level_name a = level_name b → a = b.
Proof.
  rewrite !level_name_shown. unfold shown_level.
  repeat match goal with
  | |- context [(?l =? ?k)%Z] => destruct (Z.eqb_spec l k) as [->|?]
  end;
  try reflexivity;
  try (intros H; vm_compute in H; discriminate H);
  try (by apply unknown_inj);
  intros H;
  match type of H with
  | _ = lit "UNKNOWN(" ++ ?x =>
      destruct (unknown_head x) as [t Ht]; rewrite Ht in H
  | lit "UNKNOWN(" ++ ?x = _ =>
      destruct (unknown_head x) as [t Ht]; rewrite Ht in H
  end;
  vm_compute in H; discriminate H.
Qed.

Lemma level_name_inj_witness : (4 = LogLevel.TRACE)%Z.
Proof. apply (level_name_inj 4 LogLevel.TRACE). reflexivity. Defined.

(** *** More memory, same output *)

Lemma load_bytes_mono (m m' : memory) (p n : N) (bs : list byte) :
  m ⊆ m' → load_bytes m p n = Some bs → load_bytes m' p n = Some bs.
Proof.
  intros Hsub. unfold load_bytes. rewrite !mapM_Some.
  intros H. eapply Forall2_impl; [exact H|].
  intros i b Hb. simpl in *. exact (lookup_weaken _ _ _ _ Hb Hsub).
Qed.

Lemma load_word_mono (m m' : memory) (a x : N) :
  m ⊆ m' → load_word m a = Some x → load_word m' a = Some x.
Proof.
  intros Hsub. unfold load_word.
  intros (bs & Hbs & ->)%fmap_Some.
  by rewrite (load_bytes_mono _ _ _ _ _ Hsub Hbs).
Qed.

Lemma CharSlice_load_mono (m m' : memory) (a : N) (s : CharSlice.t) :
  m ⊆ m' → CharSlice.load m a = Some s → CharSlice.load m' a = Some s.
Proof.
  intros Hsub. unfold CharSlice.load.
  destruct (load_word m a) as [d|] eqn:Hd; [|done]. simpl.
  destruct (load_word m (ptr_add a 8)) as [l|] eqn:Hl; [|done]. simpl.
  intros [= <-].
  by rewrite (load_word_mono _ _ _ _ Hsub Hd),
             (load_word_mono _ _ _ _ Hsub Hl).
Qed.

Lemma getitem_mono (m m' : memory) (v : LogFieldVec.t) (i : N)
    (f : LogField.t) :
  m ⊆ m' →
  LogFieldVec.getitem m v i = Some f → LogFieldVec.getitem m' v i = Some f.
Proof.
  intros Hsub. unfold LogFieldVec.getitem, LogField.load.
  set (a := ptr_add (LogFieldVec.ptr v) (i * LogField.sizeof)).
  destruct (CharSlice.load m a) as [k|] eqn:Hk; simpl; [|done].
  destruct (CharSlice.load m (ptr_add a CharSlice.sizeof)) as [x|] eqn:Hx;
    simpl; [|done].
  intros [= <-].
  by rewrite (CharSlice_load_mono _ _ _ _ Hsub Hk),
             (CharSlice_load_mono _ _ _ _ Hsub Hx).
Qed.

Lemma to_str_mono (m m' : memory) (self : CharSlice.t) (s : pystr) :
  m ⊆ m' →
  CharSlice.to_str m self = Return s → CharSlice.to_str m' self = Return s.
Proof.
  intros Hsub. unfold CharSlice.to_str. destruct (_ || _); [done|].
  destruct (load_bytes m _ _) as [bs|] eqn:Hbs; [|done].
  by rewrite (load_bytes_mono _ _ _ _ _ Hsub Hbs).
Qed.

Lemma to_list_mono (m m' : memory) (self : LogFieldVec.t)
    (l : list LogField.t) :
  m ⊆ m' →
  LogFieldVec.to_list m self = Return l →
  LogFieldVec.to_list m' self = Return l.
Proof.
  intros Hsub. unfold LogFieldVec.to_list. destruct (_ || _); [done|].
  destruct (mapM (LogFieldVec.getitem m self) _) as [l'|] eqn:E; [|done].
  intros [= <-].
  assert (mapM (LogFieldVec.getitem m' self) (range (LogFieldVec.len self))
          = Some l') as ->; [|done].
  apply mapM_Some. apply mapM_Some in E.
  eapply Forall2_impl; [exact E|]. intros i f. by apply getitem_mono.
Qed.

Lemma field_line_mono (m m' : memory) (field : LogField.t) (line : pystr) :
  m ⊆ m' → field_line m field = Return line →
  field_line m' field = Return line.
Proof.
  intros Hsub. unfold field_line.
  destruct (CharSlice.to_str m (LogField.key field)) as [k| |] eqn:Hk;
    cbn [mbind outcome_bind]; [|done|done].
  destruct (CharSlice.to_str m (LogField.value field)) as [v| |] eqn:Hv;
    cbn [mbind outcome_bind]; [|done|done].
  intros [= <-].
  by rewrite (to_str_mono _ _ _ _ Hsub Hk), (to_str_mono _ _ _ _ Hsub Hv).
Qed.

(** X11.  What [log_callback] prints depends only on the memory it reads:
    if it returns in some memory, it returns the same lines in any memory
    that has more readable addresses and the same bytes at the old ones. *)
Theorem log_callback_mono (e : env) (m' : memory) (event : LogEvent.t)
    (out : list pystr) :
  mem e ⊆ m' →
  log_callback e event = Return out →
  log_callback {| current_thread := current_thread e; mem := m' |} event
  = Return out.
Proof.
  intros Hsub
    (message & fields & lines & Hm & Hf & Hl & ->)%log_callback_Return.
  rewrite log_callback_unfold. cbn [mem current_thread].
  rewrite (to_str_mono _ _ _ _ Hsub Hm). cbn [mbind outcome_bind].
  rewrite (to_list_mono _ _ _ _ Hsub Hf). cbn [mbind outcome_bind].
  assert (mapM (field_line m') fields = Return lines) as ->; [|done].
  apply mapM_outcome_Return. eapply Forall2_impl; [exact Hl|].
  intros f line. by apply field_line_mono.
Qed.

Lemma log_callback_mono_witness :
  log_callback {| current_thread := lit "t";
                  mem := <[4096 := x00]> two_fields_memory |}
               event_two_fields
  = Return [lit "[t]"; lit "[INFO] "; lit "  k = a"; lit "  k = b"].
Proof.
  apply (log_callback_mono env_two_fields
           (<[4096 := x00]> two_fields_memory) event_two_fields).
  - apply insert_subseteq. vm_compute. reflexivity.
  - vm_compute. reflexivity.
Defined.

(** X12.  For an event whose message is null or empty and whose vector of
    fields is null or empty, [log_callback] reads no memory at all: in every
    memory it returns exactly two lines, the thread and the level followed
    by an empty message. *)
Theorem log_callback_bare_event (e : env) (event : LogEvent.t) :
  CharSlice.data (LogEvent.message event) = 0
  ∨ CharSlice.len (LogEvent.message event) = 0 →
  LogFieldVec.ptr (LogEvent.fields event) = 0
  ∨ LogFieldVec.len (LogEvent.fields event) = 0 →
  log_callback e event
  = Return [lit "[" ++ current_thread e ++ lit "]";
            lit "[" ++ shown_level (LogEvent.level event) ++ lit "] "].
Proof.
  intros Hm Hf. rewrite log_callback_unfold.
  assert (CharSlice.to_str (mem e) (LogEvent.message event) = Return [])
    as ->.
  { unfold CharSlice.to_str.
    destruct Hm as [-> | ->]; [done | by rewrite orb_true_r]. }
  cbn [mbind outcome_bind]. rewrite (to_list_null _ _ Hf).
  cbn [mbind outcome_bind mapM mret outcome_ret].
  by rewrite app_nil_r.
Qed.

Lemma log_callback_bare_event_witness :
  log_callback {| current_thread := lit "t"; mem := ∅ |}
    (LogEvent.Make (-3) (CharSlice.Make 0 5) (LogFieldVec.Make 77 0 0))
  = Return [lit "[t]"; lit "[UNKNOWN(-3)] "].
Proof.
  apply (log_callback_bare_event {| current_thread := lit "t"; mem := ∅ |}
           (LogEvent.Make (-3) (CharSlice.Make 0 5)
                          (LogFieldVec.Make 77 0 0))).
  - left. reflexivity.
  - right. reflexivity.
Defined.

(** ** The wrappers and the state of the module *)

Section ModuleState.
Context {State callable : Type} (lib : CDLL.t State).
Implicit Types (w : world State callable) (callback : callable) (level : Z).
Implicit Types (cs : list (call callable)).

Lemma run_calls_app cs1 cs2 w :
  run_calls lib (cs1 ++ cs2) w = run_calls lib cs2 (run_calls lib cs1 w).
Proof. unfold run_calls. apply foldl_app. Qed.

Lemma run_calls_cons (c : call callable) cs w :
  run_calls lib (c :: cs) w = run_calls lib cs (run_call lib c w).2.
Proof. done. Qed.

Lemma other_calls_next_object cs w :
  forallb (λ c, negb (is_init c)) cs = true →
  next_object (run_calls lib cs w) = next_object w.
Proof.
  revert w. induction cs as [|c cs IH]; intros w Hall; [done|].
  cbn [forallb] in Hall. apply andb_true_iff in Hall as [Hc Hcs].
  apply negb_true_iff in Hc.
  destruct (other_call_frame lib c w Hc) as (_ & _ & Hn).
  rewrite run_calls_cons, IH by done. exact Hn.
Qed.

(** X13.  Of the four wrappers only [ddog_logger_init] touches the state of
    the Python side: any sequence of calls of [ddog_logger_set_max_log_level],
    [trigger_logs] and [trigger_logs_with_args], returning or raising, leaves
    [_callback_holder] and the callback objects as they were. *)
Theorem only_init_changes_module cs w :
  forallb (λ c, negb (is_init c)) cs = true →
  _callback_holder (run_calls lib cs w) = _callback_holder w
  ∧ objects (run_calls lib cs w) = objects w
  ∧ next_object (run_calls lib cs w) = next_object w.
Proof.
  intros Hcs. destruct (other_calls_frame lib cs w Hcs) as [Hh Ho].
  split; [done|]. split; [done|]. by apply other_calls_next_object.
Qed.






Lemma holder_is_Some_step (c : call callable) w :
  is_Some (_callback_holder (run_call lib c w).2)
  ↔ is_Some (_callback_holder w) ∨ is_init c = true.
Proof.
  destruct (is_init c) eqn:Hc.
  - destruct c; try done. simpl. rewrite init_holder. split; eauto.
  - destruct (other_call_frame lib c w Hc) as (-> & _ & _).
    split; [auto | by intros [?|?]].
Qed.

(** X15.  After the module is loaded [_callback_holder] is [None] until the
    first call of [ddog_logger_init], and never again afterwards, even if
    that call raised. *)
Theorem holder_none_iff_no_init cs (s : State) :
  _callback_holder (run_calls lib cs (loaded s)) = None
  ↔ forallb (λ c, negb (is_init c)) cs = true.
Proof.
  assert (H : ∀ cs w, is_Some (_callback_holder (run_calls lib cs w))
                ↔ is_Some (_callback_holder w) ∨ existsb is_init cs = true).
  { clear. induction cs as [|c cs IH]; intros w.
    - simpl. split; [auto | by intros [?|?]].
    - rewrite run_calls_cons, IH, holder_is_Some_step. simpl.
      rewrite orb_true_iff. tauto. }
  assert (Hex : existsb is_init cs
                = negb (forallb (λ c, negb (is_init c)) cs)).
  { clear. induction cs as [|c cs IH]; [done|]. simpl.
    by rewrite IH, negb_andb, negb_involutive. }
  rewrite eq_None_not_Some, H, Hex. simpl.
  destruct (forallb _ cs); simpl; split.
  - done.
  - intros _ [[x Hx]|Hx]; done.
  - intros Hn. destruct Hn. by right.
  - done.
Qed.

(** X16.  The callback object held is the one of the latest registration:
    after a call [ddog_logger_init(level, callback)] followed by calls of the
    other wrappers only, [_callback_holder] names a live object that wraps
    [callback], whatever calls came before. *)
Theorem latest_init_is_held (pre post : list (call callable)) level callback
    w :
  world_ok w →
  forallb (λ c, negb (is_init c)) post = true →
  let w' := run_calls lib (pre ++ Init level callback :: post) w in
  ∃ cb, _callback_holder w' = Some cb
        ∧ objects w' !! cb = Some (callback, 1%nat).
Proof.
  intros Hok Hpost w'. subst w'.
  rewrite run_calls_app, run_calls_cons. simpl.
  pose proof (run_calls_ok lib pre w Hok) as Hok'.
  destruct (other_calls_frame lib post
              (ddog_logger_init lib level callback (run_calls lib pre w)).2
              Hpost) as [-> ->].
  exists (next_object (run_calls lib pre w)).
  split; [apply init_holder | by apply init_objects].
Qed.


(** X18.  The level reaches the native library as a C int.  A level that
    fits 32 bits signed is passed as it is; levels that differ by a multiple
    of 2^32 are passed alike, so that both wrappers behave the same on
    them. *)
Theorem level_is_passed_as_c_int level (k : Z) callback w :
  ((- 2 ^ 31 ≤ level < 2 ^ 31)%Z →
   native (ddog_logger_set_max_log_level lib level w).2
   = (CDLL.ddog_logger_set_max_log_level lib level (native w)).2
   ∧ native (ddog_logger_init lib level callback w).2
     = (CDLL.ddog_logger_init lib level (next_object w) (native w)).2)
  ∧ ddog_logger_set_max_log_level lib (level + k * 2 ^ 32) w
    = ddog_logger_set_max_log_level lib level w
  ∧ ddog_logger_init lib (level + k * 2 ^ 32) callback w
    = ddog_logger_init lib level callback w.
Proof.
  assert (Hk : c_int (level + k * 2 ^ 32) = c_int level).
  { unfold c_int. f_equal.
    replace (level + k * 2 ^ 32 + 2 ^ 31)%Z
      with (level + 2 ^ 31 + k * 2 ^ 32)%Z by lia.
    by rewrite Z_mod_plus_full. }
  split; [|split].
  - intros H. assert (c_int level = level) as Hid.
    { unfold c_int. rewrite Z.mod_small; lia. }
    rewrite ddog_logger_set_max_log_level_unfold, ddog_logger_init_unfold.
    cbn. by rewrite Hid.
  - unfold ddog_logger_set_max_log_level. by rewrite Hk.
  - unfold ddog_logger_init. by rewrite Hk.
Qed.

End ModuleState.

Lemma only_init_changes_module_witness :
  _callback_holder
    (run_calls counting_lib
       [TriggerLogs; SetMaxLogLevel 3; TriggerLogsWithArgs]
       (ddog_logger_init counting_lib 0 silent_callback (loaded 0%nat)).2)
  = Some 0%nat.
Proof.
  apply (only_init_changes_module counting_lib
           [TriggerLogs; SetMaxLogLevel 3; TriggerLogsWithArgs]
           (ddog_logger_init counting_lib 0 silent_callback
              (loaded 0%nat)).2).
  reflexivity.
Defined.

Lemma latest_init_is_held_witness :
  ∃ cb,
    _callback_holder
      (run_calls accepting_lib
         ([Init 0 (log_callback : callback_type); TriggerLogs]
          ++ Init 1 silent_callback :: [SetMaxLogLevel 2])
         (loaded 0%nat)) = Some cb
    ∧ objects
        (run_calls accepting_lib
           ([Init 0 (log_callback : callback_type); TriggerLogs]
            ++ Init 1 silent_callback :: [SetMaxLogLevel 2])
           (loaded 0%nat)) !! cb = Some (silent_callback, 1%nat).
Proof.
  apply (latest_init_is_held accepting_lib
           [Init 0 (log_callback : callback_type); TriggerLogs]
           [SetMaxLogLevel 2] 1 silent_callback (loaded 0%nat)).
  - split; simpl; [intros o [x Hx] | intros cb Hcb]; done.
  - reflexivity.
Defined.


Lemma level_is_passed_as_c_int_witness :
  (ddog_logger_init counting_lib (0 + 1 * 2 ^ 32) silent_callback
     (loaded 0%nat)).1 = Return tt
  ∧ native (ddog_logger_set_max_log_level counting_lib 3
              (loaded (callable := callback_type) 0%nat)).2 = 0%nat.
Proof.
  destruct (level_is_passed_as_c_int counting_lib 0 1 silent_callback
              (loaded 0%nat)) as (_ & _ & ->).
  destruct (level_is_passed_as_c_int counting_lib 3 0
              (log_callback : callback_type) (loaded 0%nat)) as (H & _ & _).
  split; [reflexivity|].
  destruct H as [-> _]; [lia | reflexivity].
Defined.

(** ** The script run as a program *)

(** X19.  Run as a program from the freshly loaded module, the script
    registers [log_callback] at level 0 (DEBUG): the callback object is held
    in [_callback_holder] in either case.  If the native library returns
    null, the logs with fields are triggered once and the script ends
    normally; if it returns an error, the script ends on RuntimeError and
    the logs are not triggered. *)
Theorem main_runs {State} (lib : CDLL.t State) (s : State) :
  let call := CDLL.ddog_logger_init lib 0 0%nat s in
  let r := main lib (loaded s) in
  _callback_holder r.2 = Some 0%nat
  ∧ objects r.2 !! 0%nat = Some (log_callback : callback_type, 1%nat)
  ∧ (call.1 = 0 →
     r.1 = Return tt
     ∧ native r.2 = CDLL.trigger_logs_with_args lib call.2)
  ∧ (call.1 ≠ 0 →
     r.1 = Raise (RuntimeError error_message) ∧ native r.2 = call.2).
Proof.
  intros call r. subst r. unfold main.
  pose proof (init_holder lib LogLevel.DEBUG
                (log_callback : callback_type) (loaded s)) as Hh.
  pose proof (init_objects lib LogLevel.DEBUG
                (log_callback : callback_type) (loaded s) (loaded_ok s))
    as Ho.
  pose proof (ddog_logger_init_unfold lib LogLevel.DEBUG
                (log_callback : callback_type) (loaded s)) as Hi.
  cbv zeta in Hi. rewrite check_error_c_void_p in Hi.
  change (c_int LogLevel.DEBUG) with 0%Z in Hi.
  change (next_object (loaded s)) with 0%nat in Hi, Hh, Ho.
  change (native (loaded s)) with s in Hi. fold call in Hi.
  destruct (ddog_logger_init lib LogLevel.DEBUG log_callback (loaded s))
    as [res w'].
  injection Hi as -> Hw. cbn [snd] in Hh, Ho.
  assert (Hn : native w' = call.2) by by rewrite Hw.
  destruct (N.eqb_spec call.1 0) as [Hz|Hz];
    cbn [fst snd trigger_logs_with_args with_native _callback_holder
         objects native];
    repeat split; try done; by rewrite Hn.
Qed.

Lemma main_runs_witness :
  (main counting_lib (loaded 5%nat)).1 = Return tt
  ∧ native (main counting_lib (loaded 5%nat)).2 = 6%nat
  ∧ (main refusing_lib (loaded tt)).1 = Raise (RuntimeError error_message).
Proof.
  destruct (main_runs counting_lib 5%nat) as (_ & _ & Hok & _).
  destruct (main_runs refusing_lib tt) as (_ & _ & _ & Herr).
  destruct Hok as [-> ->]; [reflexivity|].
  destruct Herr as [-> _]; [simpl; lia|].
  repeat split.
Defined.
